(** * prisma-translate: translation of a Prisma schema AST to an EdgeDB schema

    A shallow embedding of [src/main.ts]: [translateSchema],
    [getFieldDefault], [mapPrismaTypeToEdgeDBScalar] and [renderSchemaAst],
    over the AST types of the parser package the program imports.

    Modelling conventions.
    - A JavaScript object used as a dictionary, and a [Map], is an
      insertion-ordered association list ([omap]): writing an existing key
      replaces the value and keeps the position, writing a new key appends,
      and [Object.values] and iteration follow the list.  Keys are the
      parser's identifiers, which start with a letter: none is an array
      index, and none is [__proto__], the one key whose write does not
      create an entry.
    - Reading [obj[k]] on an object literal also finds what the object
      inherits from [Object.prototype] ([member]); a [Map] and a [Set] only
      hold their own entries.
    - A JavaScript string is a [string]; each [ascii] stands for one code
      unit.
    - A [throw] is the right injection of [result]; the constructor records
      which [throw] statement was reached, the message text is not kept.
      A [TypeError] raised by the runtime itself is [RuntimeTypeError].
    - An optional property ([array?], [optional?], [attributes?], [args?]) is
      an [option]; [None] is the absent property. *)

From Stdlib Require Import String Ascii List Bool Arith Lia.
Import ListNotations.
Local Open Scope list_scope.
Local Open Scope string_scope.

Set Implicit Arguments.
Set Warnings "-register-all".

(** ** Errors and the error monad *)

Inductive TranslateError : Type :=
| MissingRelationTargetError    (* "no target for link ... with type ..." *)
| AmbiguousBacklinkError        (* "multiple possible backlinks" *)
| UnsupportedCompositeKeyError  (* "not supported: composite ids" *)
| UnknownScalarTypeError        (* "unknown type '...'" *)
| FunctionTypeUnsupportedError  (* "unknown 'Func' type '...'" *)
| RuntimeTypeError.             (* property read on undefined *)

Definition result (A : Type) : Type := (A + TranslateError)%type.

Abbreviation Ok a := (inl a).
Abbreviation Throw e := (inr e).

Definition bind {A B : Type} (r : result A) (k : A -> result B) : result B :=
  match r with
  | inl a => k a
  | inr e => inr e
  end.

Notation "x <- r ;; k" := (bind r (fun x => k))
  (at level 61, r at next level, right associativity).

(** A [for ... of] loop whose body may throw. *)
Fixpoint forOf {S X : Type} (body : S -> X -> result S) (xs : list X) (s : S)
  : result S :=
  match xs with
  | [] => Ok s
  | x :: xs' => s' <- body s x ;; forOf body xs' s'
  end.

(** ** Insertion-ordered maps and sets *)

Definition omap (V : Type) : Type := list (string * V).

Section OMap.
Variable V : Type.

Fixpoint oget (k : string) (m : omap V) : option V :=
  match m with
  | [] => None
  | (k', v) :: m' => if String.eqb k k' then Some v else oget k m'
  end.

Fixpoint oset (k : string) (v : V) (m : omap V) : omap V :=
  match m with
  | [] => [(k, v)]
  | (k', v') :: m' =>
      if String.eqb k k' then (k', v) :: m' else (k', v') :: oset k v m'
  end.

Definition ohas (k : string) (m : omap V) : bool :=
  match oget k m with Some _ => true | None => false end.

Definition okeys (m : omap V) : list string := map fst m.
Definition ovalues (m : omap V) : list V := map snd m.
End OMap.

(** [Set<string>]: [add] keeps the first insertion. *)
Definition oset_str : Type := list string.

Definition shas (k : string) (s : oset_str) : bool :=
  existsb (String.eqb k) s.

Definition sadd (k : string) (s : oset_str) : oset_str :=
  if shas k s then s else (s ++ [k])%list.

(** ** The source AST (the parser package's declarations) *)

Inductive Value : Type :=
| VString (s : string)
| VNumber (n : nat)                             (* payload never read *)
| VBoolean (b : bool)
| VFunc (name : string) (params : option (list Value))
                                                (* { type: "function" } *)
| VRelArray (args : list string)                (* { type: "array" } *)
| VArray (items : list Value).

(** [{ type: "keyValue", key, value }]. *)
Record KeyValue : Type := {
  key : string;
  value : Value
}.

(** [AttributeArgument.value]: [KeyValue | Value | Func]. *)
Inductive ArgValue : Type :=
| AKeyValue (kv : KeyValue)
| AValue (v : Value).

Record AttributeArgument : Type := { arg_value : ArgValue }.

Record Attribute : Type := {
  attr_name : string;
  attr_args : option (list AttributeArgument)
}.

(** [Field.fieldType]: [string | Func]. *)
Inductive FieldType : Type :=
| TName (n : string)
| TFunc (name : string) (params : option (list Value)).

Record Field : Type := {
  name : string;
  fieldType : FieldType;
  array : option bool;
  optional : option bool;
  attributes : option (list Attribute)
}.

(** A member of [Model.properties]; only [type === "field"] is read. *)
Inductive Property : Type :=
| PField (f : Field)
| PModelAttribute
| PGroupedModelAttribute
| PComment
| PBreak.

Record Model : Type := {
  model_name : string;
  properties : list Property
}.

(** A member of [Enum.enumerators]; only [type === "enumerator"] is read. *)
Inductive EnumItem : Type :=
| IEnumerator (enumerator_name : string)
| IOther.

Record Enum : Type := {
  enum_name : string;
  enumerators : list EnumItem
}.

(** A member of [Schema.list]; only models and enums are read. *)
Inductive Block : Type :=
| BModel (m : Model)
| BEnum (e : Enum)
| BOther.

Record Schema : Type := { list_ : list Block }.

(** ** The target AST *)

Inductive PointerKind : Type := property | link.

Record PointerAst : Type := {
  kind : PointerKind;
  multi : bool;
  required : bool;
  type_ : string;
  exclusive : bool;
  default : option string
}.

Record BacklinkAst : Type := {
  expr : string;
  bl_multi : bool
}.

Record ObjectTypeAst : Type := {
  props : omap PointerAst;
  links : omap PointerAst;
  backlinks : omap BacklinkAst;
  linkIds : oset_str
}.

Record EnumAst : Type := { values : list string }.

Record SchemaAst : Type := {
  enums : omap EnumAst;
  types : omap ObjectTypeAst
}.

(** ** The normalized index built by [translateSchema] *)

(** [ExtendedField]: the field with its attributes keyed by name. *)
Record ExtendedField : Type := {
  field : Field;
  attrs : omap Attribute
}.

(** A model with its fields keyed by name. *)
Record IndexedModel : Type := {
  model : Model;
  fields : omap ExtendedField
}.

Definition truthy (b : option bool) : bool :=
  match b with Some true => true | _ => false end.

(** The three [reduce] calls and the enum loop all write [acc[key] = value]
    for the members that qualify, starting from an empty object. *)
Definition indexStep {X V : Type} (entry : X -> option (string * V))
    (acc : omap V) (x : X) : omap V :=
  match entry x with
  | Some (k, v) => oset k v acc
  | None => acc
  end.

Definition indexBy {X V : Type} (entry : X -> option (string * V))
    (xs : list X) : omap V :=
  fold_left (indexStep entry) xs [].

(** [prop.attributes?.reduce(...) ?? []]: later attributes of one name
    replace earlier ones; the empty array has no named entries either. *)
Definition indexAttrs (f : Field) : omap Attribute :=
  match attributes f with
  | Some l => indexBy (fun a => Some (attr_name a, a)) l
  | None => []
  end.

Definition fieldEntry (p : Property) : option (string * ExtendedField) :=
  match p with
  | PField f => Some (name f, {| field := f; attrs := indexAttrs f |})
  | _ => None
  end.

Definition indexFields (ps : list Property) : omap ExtendedField :=
  indexBy fieldEntry ps.

Definition modelEntry (b : Block) : option (string * IndexedModel) :=
  match b with
  | BModel m =>
      Some (model_name m,
            {| model := m; fields := indexFields (properties m) |})
  | _ => None
  end.

Definition indexModels (s : Schema) : omap IndexedModel :=
  indexBy modelEntry (list_ s).

(** ** Enums *)

Definition enumeratorNames (e : Enum) : list string :=
  flat_map
    (fun i => match i with IEnumerator n => [n] | IOther => [] end)
    (enumerators e).

Definition enumEntry (b : Block) : option (string * EnumAst) :=
  match b with
  | BEnum e => Some (enum_name e, {| values := enumeratorNames e |})
  | _ => None
  end.

Definition translateEnums (s : Schema) : omap EnumAst :=
  indexBy enumEntry (list_ s).

(** ** Members of an object literal *)

(** The names [Object.prototype] defines. *)
Definition objectPrototype : list string :=
  [ "constructor"; "__defineGetter__"; "__defineSetter__"; "hasOwnProperty";
    "__lookupGetter__"; "__lookupSetter__"; "isPrototypeOf";
    "propertyIsEnumerable"; "toString"; "valueOf"; "__proto__";
    "toLocaleString" ].

Definition inherited (k : string) : bool :=
  existsb (String.eqb k) objectPrototype.

(** The value of [obj[k]]: an entry of the object itself; else, under a name
    of [Object.prototype], the member found there (a function, or the
    prototype itself under [__proto__]), which is truthy and has none of the
    properties the program reads; else [undefined]. *)
Inductive Member (V : Type) : Type :=
| Own (v : V)
| Inherited (k : string)
| Undefined.

Arguments Inherited {V} k.
Arguments Undefined {V}.

Definition member {V : Type} (k : string) (m : omap V) : Member V :=
  match oget k m with
  | Some v => Own v
  | None => if inherited k then Inherited k else Undefined
  end.

(** The text of an inherited member, as a template literal prints it. *)
Definition inheritedText (k : string) : string :=
  if String.eqb k "__proto__" then "[object Object]"
  else "function "
       ++ (if String.eqb k "constructor" then "Object" else k)
       ++ "() { [native code] }".

(** A member where a string is expected: [PointerAst.type] is only read by
    the template literal that prints it. *)
Definition memberText (v : Member string) : string :=
  match v with
  | Own s => s
  | Inherited k => inheritedText k
  | Undefined => "undefined"
  end.

(** ** Scalar types *)

Definition typeMapping : omap string :=
  [ ("String", "str");
    ("Boolean", "bool");
    ("Int", "int32");
    ("BigInt", "int64");
    ("Float", "float64");
    ("Decimal", "decimal");
    ("DateTime", "datetime");
    ("Json", "json");
    ("Bytes", "bytes") ].

(** The message of the first [throw] is built from [type.params.map(...)],
    which reads a property of [undefined] when the call has no [params];
    [typeMapping[type]] is a read on an object literal. *)
Definition mapPrismaTypeToEdgeDBScalar (t : FieldType)
  : result (Member string) :=
  match t with
  | TFunc _ None => Throw RuntimeTypeError
  | TFunc _ (Some _) => Throw FunctionTypeUnsupportedError
  | TName n =>
      match member n typeMapping with
      | Undefined => Throw UnknownScalarTypeError
      | edbType => Ok edbType
      end
  end.

(** ** [JSON.stringify] on a string *)

Definition chr (n : nat) : string := String (ascii_of_nat n) EmptyString.

Definition hexDigit (n : nat) : string :=
  if (n <? 10)%nat then chr (48 + n) else chr (87 + n).

Definition jsonEscape (c : ascii) : string :=
  let n := nat_of_ascii c in
  if (n =? 34)%nat then chr 92 ++ chr 34
  else if (n =? 92)%nat then chr 92 ++ chr 92
  else if (n =? 8)%nat then chr 92 ++ "b"
  else if (n =? 12)%nat then chr 92 ++ "f"
  else if (n =? 10)%nat then chr 92 ++ "n"
  else if (n =? 13)%nat then chr 92 ++ "r"
  else if (n =? 9)%nat then chr 92 ++ "t"
  else if (n <? 32)%nat then chr 92 ++ "u00" ++ hexDigit (n / 16) ++ hexDigit (n mod 16)
  else String c EmptyString.

Fixpoint jsonEscapeAll (s : string) : string :=
  match s with
  | EmptyString => EmptyString
  | String c s' => jsonEscape c ++ jsonEscapeAll s'
  end.

Definition JSON_stringify (s : string) : string :=
  chr 34 ++ jsonEscapeAll s ++ chr 34.

(** ** Defaults *)

(** [field.attrs["default"]?.args?.[0]]. *)
Definition defaultArg (f : ExtendedField) : option AttributeArgument :=
  match oget "default" (attrs f) with
  | Some {| attr_args := Some (def :: _) |} => Some def
  | _ => None
  end.

(** [getFieldDefault(schema, field)]; of [schema] only [schema.enums] is
    read, and it is complete before the first call. *)
Definition getFieldDefault (enums : omap EnumAst) (f : ExtendedField)
  : option string :=
  match defaultArg f with
  | None => None
  | Some def =>
      match arg_value def with
      | AValue (VString v) =>
          match fieldType (field f) with
          | TName n =>
              if ohas n enums then Some (n ++ "." ++ v)
              else if String.eqb n "String" then Some (JSON_stringify v)
              else if String.eqb n "Boolean" then Some v
              else None
          | TFunc _ _ => None
          end
      | AValue (VFunc fname _) =>
          if String.eqb fname "now" then Some "datetime_current()"
          else if String.eqb fname "uuid" then Some "uuid_generate_v4()"
          else None
      | _ => None
      end
  end.

(** ** The relation classifier: the body of the loop over a model's fields *)

Definition fieldTypeIs (t : FieldType) (n : string) : bool :=
  match t with
  | TName n' => String.eqb n' n
  | TFunc _ _ => false
  end.

(** The callback of [Object.values(target.fields).filter(...)]. *)
Definition isBacklinkCandidate (owner : string) (g : ExtendedField) : bool :=
  ohas "relation" (attrs g) && fieldTypeIs (fieldType (field g)) owner.

Definition linkPair (target : IndexedModel) (owner : string)
  : list ExtendedField :=
  filter (isBacklinkCandidate owner) (ovalues (fields target)).

Definition isFieldsArg (a : AttributeArgument) : bool :=
  match arg_value a with
  | AKeyValue kv => String.eqb (key kv) "fields"
  | AValue _ => false
  end.

(** [field.attrs["relation"]?.args?.find(...)?.value]: the key-value pair of
    the first argument whose key is [fields]. *)
Definition idFields (f : ExtendedField) : option KeyValue :=
  match oget "relation" (attrs f) with
  | Some {| attr_args := Some args |} =>
      match find isFieldsArg args with
      | Some {| arg_value := AKeyValue kv |} => Some kv
      | _ => None
      end
  | _ => None
  end.

(** Lines 136-141: the composite-key check and [linkIds.add].  Only the
    array of a relation has [args]; on any other value [.args.length] reads
    a property of [undefined]. *)
Definition recordLinkId (f : ExtendedField) (ids : oset_str)
  : result oset_str :=
  match idFields f with
  | None => Ok ids
  | Some kv =>
      match value kv with
      | VRelArray [id] => Ok (sadd id ids)
      | VRelArray _ => Throw UnsupportedCompositeKeyError
      | _ => Throw RuntimeTypeError
      end
  end.

(** Lines 144-161: the pointer literal. *)
Definition edbPointer (enums : omap EnumAst) (asLink : bool)
    (f : ExtendedField) : result PointerAst :=
  let isArray := truthy (array (field f)) in
  ty <- match fieldType (field f) with
        | TName n =>
            if asLink || ohas n enums then Ok n
            else edbType <- mapPrismaTypeToEdgeDBScalar (TName n) ;;
                 Ok (memberText edbType)
        | t => edbType <- mapPrismaTypeToEdgeDBScalar t ;;
               Ok (memberText edbType)
        end ;;
  Ok {| kind := if asLink then link else property;
        multi := isArray;
        required := if isArray then false else negb (truthy (optional (field f)));
        type_ := ty;
        exclusive := ohas "unique" (attrs f);
        default := getFieldDefault enums f |}.

Definition setProp (t : ObjectTypeAst) (k : string) (p : PointerAst) :=
  {| props := oset k p (props t); links := links t;
     backlinks := backlinks t; linkIds := linkIds t |}.

Definition setLink (t : ObjectTypeAst) (k : string) (p : PointerAst) :=
  {| props := props t; links := oset k p (links t);
     backlinks := backlinks t; linkIds := linkIds t |}.

Definition setBacklink (t : ObjectTypeAst) (k : string) (b : BacklinkAst) :=
  {| props := props t; links := links t;
     backlinks := oset k b (backlinks t); linkIds := linkIds t |}.

Definition setLinkIds (t : ObjectTypeAst) (ids : oset_str) :=
  {| props := props t; links := links t;
     backlinks := backlinks t; linkIds := ids |}.

(** [isLink]: truthy when the declared type is a string under which
    [models] has a member, its own or an inherited one; the string is kept
    for [field.fieldType as string]. *)
Definition isLink (models : omap IndexedModel) (f : ExtendedField)
  : option string :=
  match fieldType (field f) with
  | TName n =>
      match member n models with
      | Undefined => None
      | _ => Some n
      end
  | TFunc _ _ => None
  end.

(** One iteration of [for (const field of Object.values(model.fields))].
    An inherited member has no [fields]: [Object.values(target.fields)]
    throws on [undefined]. *)
Definition translateField (models : omap IndexedModel) (enums : omap EnumAst)
    (owner : IndexedModel) (edbType : ObjectTypeAst) (f : ExtendedField)
  : result ObjectTypeAst :=
  match isLink models f with
  | Some n =>
      match member n models with
      | Undefined => Throw MissingRelationTargetError
      | Inherited _ => Throw RuntimeTypeError
      | Own target =>
          let pair := linkPair target (model_name (model owner)) in
          if (1 <? length pair)%nat then Throw AmbiguousBacklinkError
          else
            match pair with
            | g :: _ =>
                Ok (setBacklink edbType (name (field f))
                      {| expr := ".<" ++ name (field g) ++ "[is "
                                 ++ model_name (model target) ++ "];";
                         bl_multi := truthy (array (field f)) |})
            | [] =>
                ids <- recordLinkId f (linkIds edbType) ;;
                p <- edbPointer enums true f ;;
                Ok (setLink (setLinkIds edbType ids) (name (field f)) p)
            end
      end
  | None =>
      p <- edbPointer enums false f ;;
      Ok (setProp edbType (name (field f)) p)
  end.

Definition emptyType : ObjectTypeAst :=
  {| props := []; links := []; backlinks := []; linkIds := [] |}.

(** One iteration of [for (const model of Object.values(models))].  The
    program registers the empty [edbType] first and fills it in place; no
    iteration reads [edbSchema.types], so registering the filled record at
    the same key gives the same map. *)
Definition translateModel (models : omap IndexedModel) (enums : omap EnumAst)
    (tys : omap ObjectTypeAst) (m : IndexedModel)
  : result (omap ObjectTypeAst) :=
  edbType <- forOf (translateField models enums m) (ovalues (fields m))
                   emptyType ;;
  Ok (oset (model_name (model m)) edbType tys).

Definition translateSchema (s : Schema) : result SchemaAst :=
  let enums := translateEnums s in
  let models := indexModels s in
  tys <- forOf (translateModel models enums) (ovalues models) [] ;;
  Ok {| enums := enums; types := tys |}.

(** ** Rendering *)

Definition nl : string := chr 10.

Definition kindName (k : PointerKind) : string :=
  match k with property => "property" | link => "link" end.

Definition renderEnum (e : string * EnumAst) : string :=
  "  scalar type " ++ fst e ++ " extending enum<"
  ++ String.concat ", " (values (snd e)) ++ ">;".

Definition pointerAttrs (p : PointerAst) : list string :=
  let excl := if exclusive p then ["      constraint exclusive;"] else [] in
  let dflt := match default p with
              | Some d => ["      default := " ++ d ++ ";"]
              | None => []
              end in
  (excl ++ dflt)%list.

Definition renderPointer (e : string * PointerAst) : string :=
  let (n, p) := e in
  "    " ++ (if required p then "required " else EmptyString)
  ++ (if multi p then "multi " else EmptyString)
  ++ kindName (kind p) ++ " " ++ n ++ " -> " ++ type_ p
  ++ match pointerAttrs p with
     | [] => EmptyString
     | a => " {" ++ nl ++ String.concat nl a ++ nl ++ "    }"
     end
  ++ ";".

Definition renderBacklink (e : string * BacklinkAst) : string :=
  let (n, b) := e in
  "    " ++ (if bl_multi b then "multi " else EmptyString)
  ++ "link " ++ n ++ " := " ++ expr b.

(** [[...objType.props, ...objType.links].filter(...)]: the stored pointers
    that reach the output. *)
Definition renderedPointers (t : ObjectTypeAst) : omap PointerAst :=
  filter (fun e => negb (shas (fst e) (linkIds t))) (props t ++ links t)%list.

Definition typeBody (t : ObjectTypeAst) : list string :=
  (map renderPointer (renderedPointers t)
   ++ map renderBacklink (backlinks t))%list.

Definition renderType (e : string * ObjectTypeAst) : string :=
  let (n, t) := e in
  "  type " ++ n ++ " {" ++ nl ++ String.concat nl (typeBody t) ++ nl ++ "  }".

Definition renderSchemaAst (s : SchemaAst) : string :=
  "module default {" ++ nl
  ++ String.concat (nl ++ nl)
       (map renderEnum (enums s) ++ map renderType (types s))%list
  ++ nl ++ "}" ++ nl.

(** * Definitions for the properties *)

(** ** Runs and classifications *)

(** The first error of a sequence of steps. *)
Fixpoint firstError {A : Type} (rs : list (result A)) : option TranslateError :=
  match rs with
  | [] => None
  | inl _ :: rs' => firstError rs'
  | inr e :: _ => Some e
  end.

(** The loop body read in two steps: what the field becomes, which does not
    depend on the object type accumulated so far ([classify]), and the one
    write that records it ([place]).  [translateField_classify] proves the
    loop body equal to their composition. *)
Inductive Outcome : Type :=
| ComputedBacklink (b : BacklinkAst)
| StoredLink (id : option string) (p : PointerAst)
| StoredProp (p : PointerAst).

(** The id name that [recordLinkId] adds, if any. *)
Definition linkIdOf (f : ExtendedField) : result (option string) :=
  match idFields f with
  | None => Ok None
  | Some kv =>
      match value kv with
      | VRelArray [id] => Ok (Some id)
      | VRelArray _ => Throw UnsupportedCompositeKeyError
      | _ => Throw RuntimeTypeError
      end
  end.

Definition classify (models : omap IndexedModel) (enums : omap EnumAst)
    (owner : IndexedModel) (f : ExtendedField) : result Outcome :=
  match isLink models f with
  | Some n =>
      match member n models with
      | Undefined => Throw MissingRelationTargetError
      | Inherited _ => Throw RuntimeTypeError
      | Own target =>
          let pair := linkPair target (model_name (model owner)) in
          if (1 <? length pair)%nat then Throw AmbiguousBacklinkError
          else
            match pair with
            | g :: _ =>
                Ok (ComputedBacklink
                      {| expr := ".<" ++ name (field g) ++ "[is "
                                 ++ model_name (model target) ++ "];";
                         bl_multi := truthy (array (field f)) |})
            | [] =>
                id <- linkIdOf f ;;
                p <- edbPointer enums true f ;;
                Ok (StoredLink id p)
            end
      end
  | None =>
      p <- edbPointer enums false f ;;
      Ok (StoredProp p)
  end.

Definition place (t : ObjectTypeAst) (k : string) (o : Outcome)
  : ObjectTypeAst :=
  match o with
  | ComputedBacklink b => setBacklink t k b
  | StoredLink id p =>
      let ids := match id with
                 | Some i => sadd i (linkIds t)
                 | None => linkIds t
                 end in
      setLink (setLinkIds t ids) k p
  | StoredProp p => setProp t k p
  end.

(** What an object type holds under one name. *)
Definition slot (F : string) (t : ObjectTypeAst)
  : option PointerAst * option PointerAst * option BacklinkAst :=
  (oget F (props t), oget F (links t), oget F (backlinks t)).

(** The inner loop of one model, from the empty object type. *)
Definition translateFields (models : omap IndexedModel) (enums : omap EnumAst)
    (m : IndexedModel) : result ObjectTypeAst :=
  forOf (translateField models enums m) (ovalues (fields m)) emptyType.

(** The fields in the order the two nested loops visit them. *)
Definition workList (s : Schema) : list (IndexedModel * ExtendedField) :=
  flat_map (fun m => map (pair m) (ovalues (fields m)))
           (ovalues (indexModels s)).

(** The error, if any, that the loop body raises on a field. *)
Definition fieldError (s : Schema) (x : IndexedModel * ExtendedField)
  : option TranslateError :=
  match translateField (indexModels s) (translateEnums s) (fst x)
                       emptyType (snd x) with
  | inl _ => None
  | inr e => Some e
  end.

(** Field [x] makes the run fail with [e]: the loop body throws [e] on it
    whatever has been accumulated, the run therefore returns no schema, and
    the error of the run is [e] when no field visited before [x] throws (the
    first throw ends the run). *)
Definition failsWith (s : Schema) (x : IndexedModel * ExtendedField)
    (e : TranslateError) : Prop :=
  (forall t,
      translateField (indexModels s) (translateEnums s) (fst x) t (snd x)
      = Throw e)
  /\ (exists e', translateSchema s = Throw e')
  /\ (forall pre post,
         workList s = (pre ++ x :: post)%list ->
         (forall y, In y pre -> fieldError s y = None) ->
         translateSchema s = Throw e).

(** The names of the lines of a type's body, in order: the stored pointers
    that pass the [linkIds] filter, then the backlinks. *)
Definition renderedNames (t : ObjectTypeAst) : list string :=
  (okeys (renderedPointers t) ++ okeys (backlinks t))%list.

(** ** Example schemas *)

Definition attribute (n : string) (args : option (list AttributeArgument))
  : Attribute :=
  {| attr_name := n; attr_args := args |}.

Definition argOf (v : ArgValue) : AttributeArgument := {| arg_value := v |}.

(** [@default(fn())], [@default(LITERAL)] and
    [@relation(fields: [fk, ...], references: [id])]. *)
Definition defaultCall (fn : string) : Attribute :=
  attribute "default" (Some [argOf (AValue (VFunc fn None))]).

Definition defaultLiteral (v : string) : Attribute :=
  attribute "default" (Some [argOf (AValue (VString v))]).

Definition relationOn (fks : list string) : Attribute :=
  attribute "relation"
    (Some [argOf (AKeyValue {| key := "fields"; value := VRelArray fks |});
           argOf (AKeyValue {| key := "references";
                               value := VRelArray ["id"] |})]).

Definition fieldOf (n t : string) (arr opt : option bool)
    (ats : option (list Attribute)) : Property :=
  PField {| name := n; fieldType := TName t; array := arr; optional := opt;
            attributes := ats |}.

Definition idField : Property :=
  fieldOf "id" "Int" None None
    (Some [attribute "id" None; defaultCall "autoincrement"]).

(** A schema that translates to the repository's example output: users,
    profiles, posts and categories, and the enum of roles. *)
Definition exampleSchema : Schema :=
  {| list_ :=
       [ BOther;
         BModel {| model_name := "User";
                   properties :=
                     [ idField;
                       fieldOf "email" "String" None None
                         (Some [attribute "unique" None]);
                       fieldOf "name" "String" None (Some true) None;
                       fieldOf "role" "Role" None None
                         (Some [defaultLiteral "USER"]);
                       fieldOf "posts" "Post" (Some true) None None;
                       fieldOf "profile" "Profile" None (Some true) None ] |};
         BModel {| model_name := "Profile";
                   properties :=
                     [ idField;
                       fieldOf "bio" "String" None None None;
                       fieldOf "user" "User" None None
                         (Some [relationOn ["userId"]]);
                       fieldOf "userId" "Int" None None None ] |};
         BModel {| model_name := "Post";
                   properties :=
                     [ idField;
                       fieldOf "createdAt" "DateTime" None None
                         (Some [defaultCall "now"]);
                       fieldOf "title" "String" None None None;
                       fieldOf "published" "Boolean" None None
                         (Some [defaultLiteral "false"]);
                       fieldOf "author" "User" None None
                         (Some [relationOn ["authorId"]]);
                       fieldOf "authorId" "Int" None None None;
                       PBreak;
                       fieldOf "categories" "Category" (Some true) None None ] |};
         BModel {| model_name := "Category";
                   properties :=
                     [ idField;
                       fieldOf "name" "String" None None None;
                       fieldOf "posts" "Post" (Some true) None None ] |};
         BEnum {| enum_name := "Role";
                  enumerators :=
                    [IEnumerator "USER"; IOther; IEnumerator "ADMIN"] |} ] |}.

(** The repository's example output, with the final newline that
    [renderSchemaAst] writes. *)
Definition exampleOutput : string :=
"module default {
  scalar type Role extending enum<USER, ADMIN>;

  type User {
    required property id -> int32;
    required property email -> str {
      constraint exclusive;
    };
    property name -> str;
    required property role -> Role {
      default := Role.USER;
    };
    multi link posts := .<author[is Post];
    link profile := .<user[is Profile];
  }

  type Profile {
    required property id -> int32;
    required property bio -> str;
    required link user -> User;
  }

  type Post {
    required property id -> int32;
    required property createdAt -> datetime {
      default := datetime_current();
    };
    required property title -> str;
    required property published -> bool {
      default := false;
    };
    required link author -> User;
    multi link categories -> Category;
  }

  type Category {
    required property id -> int32;
    required property name -> str;
    multi link posts -> Post;
  }
}
".

(** The indexed model and field under a name, for examples. *)
Definition modelAt (s : Schema) (n : string) : IndexedModel :=
  match oget n (indexModels s) with
  | Some m => m
  | None => {| model := {| model_name := EmptyString; properties := [] |};
               fields := [] |}
  end.

Definition fieldAt (s : Schema) (m n : string) : ExtendedField :=
  match oget n (fields (modelAt s m)) with
  | Some f => f
  | None => {| field := {| name := EmptyString; fieldType := TName EmptyString;
                           array := None; optional := None;
                           attributes := None |};
               attrs := [] |}
  end.

Definition emptySchemaAst : SchemaAst := {| enums := []; types := [] |}.

(** The value of a run, for examples that run to completion. *)
Definition valueOf (r : result SchemaAst) : SchemaAst :=
  match r with
  | inl t => t
  | inr _ => emptySchemaAst
  end.

Definition exampleTarget : SchemaAst :=
  Eval vm_compute in valueOf (translateSchema exampleSchema).

Definition categoriesPointer : PointerAst :=
  {| kind := link; multi := true; required := false;
     type_ := "Category"; exclusive := false; default := None |}.

Definition ambiguousSchema : Schema :=
  {| list_ :=
       [ BModel {| model_name := "Team";
                   properties :=
                     [ idField;
                       fieldOf "members" "Player" (Some true) None None ] |};
         BModel {| model_name := "Player";
                   properties :=
                     [ idField;
                       fieldOf "team" "Team" None None
                         (Some [relationOn ["teamId"]]);
                       fieldOf "teamId" "Int" None None None;
                       fieldOf "formerTeam" "Team" None (Some true)
                         (Some [relationOn ["formerTeamId"]]);
                       fieldOf "formerTeamId" "Int" None (Some true) None ] |} ] |}.

Definition unknownScalarSchema : Schema :=
  {| list_ :=
       [ BModel {| model_name := "Place";
                   properties :=
                     [ fieldOf "location" "Point" None None None ] |} ] |}.

Definition functionTypeSchema : Schema :=
  {| list_ :=
       [ BModel {| model_name := "Place";
                   properties :=
                     [ PField {| name := "area";
                                 fieldType :=
                                   TFunc "Unsupported" (Some [VString "circle"]);
                                 array := None; optional := None;
                                 attributes := None |} ] |} ] |}.

Definition danglingSchema : Schema :=
  {| list_ :=
       [ BModel {| model_name := "Post";
                   properties :=
                     [ idField;
                       fieldOf "author" "User" None None None ] |} ] |}.

Definition orphanIdSchema : Schema :=
  {| list_ :=
       [ BModel {| model_name := "Post";
                   properties :=
                     [ idField;
                       fieldOf "author" "User" None None
                         (Some [relationOn ["authorId"]]) ] |};
         BModel {| model_name := "User";
                   properties := [ idField ] |} ] |}.

Definition redeclaredEnumSchema : Schema :=
  {| list_ :=
       [ BEnum {| enum_name := "Role";
                  enumerators := [IEnumerator "USER"; IEnumerator "ADMIN"] |};
         BEnum {| enum_name := "Role";
                  enumerators := [IEnumerator "GUEST"] |} ] |}.

Definition compositeKeySchema : Schema :=
  {| list_ :=
       [ BModel {| model_name := "Post";
                   properties :=
                     [ idField;
                       fieldOf "author" "User" None None
                         (Some [relationOn ["authorFirst"; "authorLast"]]);
                       fieldOf "authorFirst" "String" None None None;
                       fieldOf "authorLast" "String" None None None ] |};
         BModel {| model_name := "User";
                   properties :=
                     [ fieldOf "first" "String" None None None;
                       fieldOf "last" "String" None None None ] |} ] |}.

(** [compositeKeySchema] with an earlier field of a type the table lacks. *)
Definition compositeAfterUnknownSchema : Schema :=
  {| list_ :=
       [ BModel {| model_name := "Post";
                   properties :=
                     [ fieldOf "cover" "Image" None None None;
                       fieldOf "author" "User" None None
                         (Some [relationOn ["authorFirst"; "authorLast"]]);
                       fieldOf "authorFirst" "String" None None None;
                       fieldOf "authorLast" "String" None None None ] |};
         BModel {| model_name := "User";
                   properties :=
                     [ fieldOf "first" "String" None None None;
                       fieldOf "last" "String" None None None ] |} ] |}.

(** A relation attribute that names, as its id field, a field that is
    itself a backlink of the model. *)
Definition backlinkAsIdSchema : Schema :=
  {| list_ :=
       [ BModel {| model_name := "User"; properties := [ idField ] |};
         BModel {| model_name := "Comment";
                   properties :=
                     [ idField;
                       fieldOf "post" "Post" None None
                         (Some [relationOn ["postId"]]);
                       fieldOf "postId" "Int" None None None ] |};
         BModel {| model_name := "Post";
                   properties :=
                     [ idField;
                       fieldOf "author" "User" None None
                         (Some [relationOn ["comments"]]);
                       fieldOf "comments" "Comment" (Some true) None None ] |} ] |}.

(** [ambiguousSchema] with an earlier field of a type the table lacks. *)
Definition ambiguousAfterUnknownSchema : Schema :=
  {| list_ :=
       [ BModel {| model_name := "Team";
                   properties :=
                     [ fieldOf "logo" "Image" None None None;
                       fieldOf "members" "Player" (Some true) None None ] |};
         BModel {| model_name := "Player";
                   properties :=
                     [ idField;
                       fieldOf "team" "Team" None None
                         (Some [relationOn ["teamId"]]);
                       fieldOf "teamId" "Int" None None None;
                       fieldOf "formerTeam" "Team" None (Some true)
                         (Some [relationOn ["formerTeamId"]]);
                       fieldOf "formerTeamId" "Int" None (Some true) None ] |} ] |}.

(** [unknownScalarSchema] with an earlier field of a function type. *)
Definition unknownAfterFunctionSchema : Schema :=
  {| list_ :=
       [ BModel {| model_name := "Place";
                   properties :=
                     [ PField {| name := "area";
                                 fieldType :=
                                   TFunc "Unsupported" (Some [VString "circle"]);
                                 array := None; optional := None;
                                 attributes := None |};
                       fieldOf "location" "Point" None None None ] |} ] |}.

(** ** What a field becomes *)

(** The inverse candidates the loop body computes for a link field. *)
Definition candidates (models : omap IndexedModel) (owner : IndexedModel)
    (f : ExtendedField) : option (list ExtendedField) :=
  match isLink models f with
  | Some n =>
      match oget n models with
      | Some target => Some (linkPair target (model_name (model owner)))
      | None => None
      end
  | None => None
  end.

Definition becomesProp (models : omap IndexedModel) (f : ExtendedField)
  : bool :=
  match isLink models f with
  | None => true
  | Some _ => false
  end.

Definition becomesLink (models : omap IndexedModel) (owner : IndexedModel)
    (f : ExtendedField) : bool :=
  match candidates models owner f with
  | Some [] => true
  | _ => false
  end.

Definition becomesBacklink (models : omap IndexedModel) (owner : IndexedModel)
    (f : ExtendedField) : bool :=
  match candidates models owner f with
  | Some (_ :: _) => true
  | _ => false
  end.

(** ** Declarations of a schema *)

Definition declaredModelNames (s : Schema) : list string :=
  flat_map (fun b => match b with BModel m => [model_name m] | _ => [] end)
           (list_ s).

Definition declaredEnumNames (s : Schema) : list string :=
  flat_map (fun b => match b with BEnum e => [enum_name e] | _ => [] end)
           (list_ s).

(** The members of [xs] that [indexBy] writes, in order. *)
Definition entriesOf {X V : Type} (entry : X -> option (string * V))
    (xs : list X) : omap V :=
  flat_map (fun x => match entry x with Some kv => [kv] | None => [] end) xs.

(** The schema without the blocks that are neither models nor enums
    (data sources, generators, comments, breaks). *)
Definition dropOtherBlocks (s : Schema) : Schema :=
  {| list_ :=
       filter (fun b => match b with BOther => false | _ => true end)
              (list_ s) |}.

(** ** Causes of a failure *)

(** What in field [f] of model [m] makes the loop body throw [e]. *)
Definition errorCause (s : Schema) (m : IndexedModel) (f : ExtendedField)
    (e : TranslateError) : Prop :=
  match e with
  | MissingRelationTargetError => False
  | AmbiguousBacklinkError =>
      exists l, candidates (indexModels s) m f = Some l /\ 1 < length l
  | UnsupportedCompositeKeyError =>
      becomesLink (indexModels s) m f = true
      /\ exists kv ids,
           idFields f = Some kv /\ value kv = VRelArray ids
           /\ length ids <> 1
  | RuntimeTypeError =>
      (becomesLink (indexModels s) m f = true
       /\ exists kv,
            idFields f = Some kv /\ forall ids, value kv <> VRelArray ids)
      \/ (exists n,
             fieldType (field f) = TName n
             /\ oget n (indexModels s) = None
             /\ inherited n = true)
      \/ (exists fn, fieldType (field f) = TFunc fn None)
  | UnknownScalarTypeError =>
      isLink (indexModels s) f = None
      /\ exists n,
           fieldType (field f) = TName n
           /\ ohas n (translateEnums s) = false
           /\ oget n typeMapping = None
  | FunctionTypeUnsupportedError =>
      exists fn ps, fieldType (field f) = TFunc fn (Some ps)
  end.

(** ** Further example schemas *)

(** Two models whose relation fields both carry a relation attribute; the
    one on [Owner] lists two id names. *)
Definition mutualRelationSchema : Schema :=
  {| list_ :=
       [ BModel {| model_name := "Owner";
                   properties :=
                     [ idField;
                       fieldOf "pet" "Pet" None (Some true)
                         (Some [relationOn ["petKind"; "petName"]]) ] |};
         BModel {| model_name := "Pet";
                   properties :=
                     [ idField;
                       fieldOf "owner" "Owner" None None
                         (Some [relationOn ["ownerId"]]);
                       fieldOf "ownerId" "Int" None None None ] |} ] |}.

(** [@relation(fields: [])]. *)
Definition emptyFieldsSchema : Schema :=
  {| list_ :=
       [ BModel {| model_name := "Post";
                   properties :=
                     [ idField;
                       fieldOf "author" "User" None None
                         (Some [relationOn []]) ] |};
         BModel {| model_name := "User"; properties := [ idField ] |} ] |}.

(** [@relation(fields: authorId)]: a name where a list is expected. *)
Definition malformedFieldsSchema : Schema :=
  {| list_ :=
       [ BModel {| model_name := "Post";
                   properties :=
                     [ idField;
                       fieldOf "author" "User" None None
                         (Some [attribute "relation"
                                  (Some [argOf (AKeyValue
                                           {| key := "fields";
                                              value := VString "authorId" |})])]);
                       fieldOf "authorId" "Int" None None None ] |};
         BModel {| model_name := "User"; properties := [ idField ] |} ] |}.

(** A model that refers to itself: [parent] carries the relation attribute,
    [children] is its other side. *)
Definition selfRelationSchema : Schema :=
  {| list_ :=
       [ BModel {| model_name := "Node";
                   properties :=
                     [ idField;
                       fieldOf "parent" "Node" None (Some true)
                         (Some [relationOn ["parentId"]]);
                       fieldOf "parentId" "Int" None (Some true) None;
                       fieldOf "children" "Node" (Some true) None None ] |} ] |}.

(** A model whose members are all attributes and comments, beside a
    model with one field. *)
Definition fieldlessSchema : Schema :=
  {| list_ :=
       [ BModel {| model_name := "Marker";
                   properties := [ PComment; PModelAttribute; PBreak ] |};
         BModel {| model_name := "User"; properties := [ idField ] |} ] |}.

(** ** Reading a quoted literal back *)

(** A character that [JSON.stringify] copies as it is. *)
Definition plainChar (c : ascii) : bool :=
  let n := nat_of_ascii c in
  (32 <=? n)%nat && negb (n =? 34)%nat && negb (n =? 92)%nat.

Fixpoint plain (s : string) : bool :=
  match s with
  | EmptyString => true
  | String c s' => plainChar c && plain s'
  end.

Definition hexValue (c : ascii) : option nat :=
  let n := nat_of_ascii c in
  if (48 <=? n)%nat && (n <=? 57)%nat then Some (n - 48)
  else if (97 <=? n)%nat && (n <=? 102)%nat then Some (n - 87)
  else None.

(** The text of a string literal after its opening quote: the characters it
    denotes, up to the closing quote, which ends the text.  A raw control
    character, a raw quote before the end and an unknown escape are
    refused. *)
Fixpoint literalBody (s : string) : option string :=
  match s with
  | EmptyString => None
  | String c rest =>
      let n := nat_of_ascii c in
      if (n =? 34)%nat then
        match rest with
        | EmptyString => Some EmptyString
        | String _ _ => None
        end
      else if (n =? 92)%nat then
        match rest with
        | EmptyString => None
        | String e rest' =>
            let k := nat_of_ascii e in
            if (k =? 34)%nat then
              option_map (String (ascii_of_nat 34)) (literalBody rest')
            else if (k =? 92)%nat then
              option_map (String (ascii_of_nat 92)) (literalBody rest')
            else if (k =? 98)%nat then
              option_map (String (ascii_of_nat 8)) (literalBody rest')
            else if (k =? 102)%nat then
              option_map (String (ascii_of_nat 12)) (literalBody rest')
            else if (k =? 110)%nat then
              option_map (String (ascii_of_nat 10)) (literalBody rest')
            else if (k =? 114)%nat then
              option_map (String (ascii_of_nat 13)) (literalBody rest')
            else if (k =? 116)%nat then
              option_map (String (ascii_of_nat 9)) (literalBody rest')
            else if (k =? 117)%nat then
              match rest' with
              | String a (String b (String h (String l rest''))) =>
                  match hexValue a, hexValue b, hexValue h, hexValue l with
                  | Some 0, Some 0, Some hi, Some lo =>
                      option_map (String (ascii_of_nat (16 * hi + lo)))
                                 (literalBody rest'')
                  | _, _, _, _ => None
                  end
              | _ => None
              end
            else None
        end
      else if (n <? 32)%nat then None
      else option_map (String c) (literalBody rest)
  end.

(** The string a quoted literal denotes. *)
Definition readLiteral (s : string) : option string :=
  match s with
  | EmptyString => None
  | String c body =>
      if (nat_of_ascii c =? 34)%nat then literalBody body else None
  end.

(** ** Example schemas for defaults and inherited names *)

(** [status String @default(draft)] and a default whose text holds quotes. *)
Definition stringDefaultSchema : Schema :=
  {| list_ :=
       [ BModel {| model_name := "Article";
                   properties :=
                     [ idField;
                       fieldOf "status" "String" None None
                         (Some [defaultLiteral "draft"]);
                       fieldOf "title" "String" None None
                         (Some [defaultLiteral
                                  (chr 34 ++ "No title" ++ chr 34)]) ] |} ] |}.

(** An enum whose name every object inherits, and a field of that type. *)
Definition inheritedEnumSchema : Schema :=
  {| list_ :=
       [ BEnum {| enum_name := "toString";
                  enumerators := [IEnumerator "SHORT"; IEnumerator "LONG"] |};
         BModel {| model_name := "Report";
                   properties :=
                     [ idField;
                       fieldOf "format" "toString" None None None ] |} ] |}.

(** A field whose type is a name every object inherits, and nothing else
    under that name. *)
Definition inheritedTypeSchema : Schema :=
  {| list_ :=
       [ BModel {| model_name := "Widget";
                   properties :=
                     [ idField;
                       fieldOf "maker" "constructor" None None None ] |} ] |}.

(** [area Unsupported()]: a call type without parameters. *)
Definition bareCallTypeSchema : Schema :=
  {| list_ :=
       [ BModel {| model_name := "Place";
                   properties :=
                     [ PField {| name := "area";
                                 fieldType := TFunc "Unsupported" None;
                                 array := None; optional := None;
                                 attributes := None |} ] |} ] |}.

(** The object type under a name, for examples. *)
Definition typeAt (out : SchemaAst) (n : string) : ObjectTypeAst :=
  match oget n (types out) with
  | Some t => t
  | None => emptyType
  end.

(** * Properties *)

(** ** Ordered maps *)

Section OMapFacts.

Variable V : Type.

Implicit Types (m : omap V) (k : string) (v : V).

Lemma oget_oset_eq k v m : oget k (oset k v m) = Some v.
Proof.
  induction m as [|[k' v'] m IH]; simpl.
  - now rewrite String.eqb_refl.
  - destruct (String.eqb k k') eqn:E; simpl; rewrite E; auto.
Qed.

Lemma oget_oset_ne k k' v m : k <> k' -> oget k (oset k' v m) = oget k m.
Proof.
  intros Hne. induction m as [|[k0 v0] m IH]; simpl.
  - destruct (String.eqb k k') eqn:E; auto.
    apply String.eqb_eq in E. contradiction.
  - destruct (String.eqb k' k0) eqn:E; simpl.
    + apply String.eqb_eq in E. subst k0.
      destruct (String.eqb k k') eqn:E'; auto.
      apply String.eqb_eq in E'. contradiction.
    + now rewrite IH.
Qed.

Lemma oget_In k v m : oget k m = Some v -> In (k, v) m.
Proof.
  induction m as [|[k' v'] m IH]; simpl; [discriminate|].
  destruct (String.eqb k k') eqn:E.
  - apply String.eqb_eq in E. intros [= ->]. subst. now left.
  - auto.
Qed.

Lemma oget_None k m : oget k m = None <-> ~ In k (okeys m).
Proof.
  induction m as [|[k' v'] m IH]; simpl.
  - tauto.
  - destruct (String.eqb k k') eqn:E.
    + apply String.eqb_eq in E. subst. split; [discriminate|]. tauto.
    + apply String.eqb_neq in E. rewrite IH. split.
      * intros H [H'|H']; [congruence | tauto].
      * tauto.
Qed.

Lemma In_oget k v m : NoDup (okeys m) -> In (k, v) m -> oget k m = Some v.
Proof.
  induction m as [|[k' v'] m IH]; simpl; [tauto|].
  intros Hnd [H|H].
  - injection H as -> ->. now rewrite String.eqb_refl.
  - inversion Hnd as [|? ? Hnot Hnd']; subst.
    destruct (String.eqb k k') eqn:E; auto.
    apply String.eqb_eq in E. subst k'.
    exfalso. apply Hnot. change k with (fst (k, v)). now apply in_map.
Qed.

Lemma ohas_true k m : ohas k m = true <-> exists v, oget k m = Some v.
Proof.
  unfold ohas. destruct (oget k m) as [v|].
  - split; eauto.
  - split; [discriminate | intros [v H]; discriminate].
Qed.

Lemma ohas_false k m : ohas k m = false <-> oget k m = None.
Proof.
  unfold ohas. destruct (oget k m); split; congruence.
Qed.

Lemma okeys_oset k v m :
  okeys (oset k v m) = if ohas k m then okeys m else (okeys m ++ [k])%list.
Proof.
  unfold ohas. induction m as [|[k' v'] m IH]; simpl; auto.
  destruct (String.eqb k k') eqn:E; simpl; auto.
  rewrite IH. now destruct (oget k m).
Qed.

Lemma NoDup_okeys_oset k v m : NoDup (okeys m) -> NoDup (okeys (oset k v m)).
Proof.
  intros Hnd. rewrite okeys_oset.
  destruct (ohas k m) eqn:E; auto.
  apply ohas_false, oget_None in E.
  apply NoDup_app; auto.
  - repeat constructor. simpl. tauto.
  - intros x Hx [<-|[]]. contradiction.
Qed.

Lemma In_ovalues v m : In v (ovalues m) <-> exists k, In (k, v) m.
Proof.
  unfold ovalues. rewrite in_map_iff. split.
  - intros [[k v'] [<- H]]. now exists k.
  - intros [k H]. now exists (k, v).
Qed.

Lemma oget_ovalues k v m : oget k m = Some v -> In v (ovalues m).
Proof.
  intros H. apply In_ovalues. exists k. now apply oget_In.
Qed.

Lemma member_Own k v m : oget k m = Some v -> member k m = Own v.
Proof. intros H. unfold member. now rewrite H. Qed.

Lemma member_Own_inv k v m : member k m = Own v -> oget k m = Some v.
Proof.
  unfold member. destruct (oget k m) as [v'|]; [congruence|].
  destruct (inherited k); discriminate.
Qed.

Lemma member_Inherited k k' m :
  member k m = Inherited k' ->
  oget k m = None /\ inherited k = true /\ k' = k.
Proof.
  unfold member. destruct (oget k m) as [v'|]; [discriminate|].
  destruct (inherited k); [|discriminate]. intros [= <-]. auto.
Qed.

Lemma member_Undefined k m :
  member k m = Undefined <-> oget k m = None /\ inherited k = false.
Proof.
  unfold member. destruct (oget k m) as [v'|].
  - split; [discriminate|]. intros [H _]. discriminate.
  - destruct (inherited k); split; try discriminate; auto.
    intros [_ H]. discriminate.
Qed.

End OMapFacts.

(** ** Indexing by name *)

Section IndexFacts.

Variables X V : Type.

Variable entry : X -> option (string * V).

Implicit Types (xs : list X) (acc : omap V) (k : string) (v : V).

Lemma In_oset k v k' v' acc :
  In (k, v) (oset k' v' acc) -> In (k, v) acc \/ (k, v) = (k', v').
Proof.
  induction acc as [|[k0 v0] acc IH]; simpl.
  - intros [H|[]]. now right.
  - destruct (String.eqb k' k0) eqn:E; simpl.
    + apply String.eqb_eq in E. subst k0.
      intros [H|H]; [right; now symmetry | left; now right].
    + intros [H|H]; [left; now left|].
      destruct (IH H); [left; now right | now right].
Qed.

Lemma fold_index_NoDup xs acc :
  NoDup (okeys acc) -> NoDup (okeys (fold_left (indexStep entry) xs acc)).
Proof.
  revert acc. induction xs as [|x xs IH]; simpl; intros acc Hnd; auto.
  apply IH. unfold indexStep. destruct (entry x) as [[k v]|]; auto.
  now apply NoDup_okeys_oset.
Qed.

Lemma fold_index_In xs acc k v :
  In (k, v) (fold_left (indexStep entry) xs acc) ->
  In (k, v) acc \/ exists x, In x xs /\ entry x = Some (k, v).
Proof.
  revert acc. induction xs as [|x xs IH]; simpl; intros acc H; auto.
  apply IH in H. destruct H as [H|[y [Hy He]]].
  - unfold indexStep in H. destruct (entry x) as [[k' v']|] eqn:E; auto.
    apply In_oset in H. destruct H as [H|H]; auto.
    right. exists x. split; auto. now rewrite H.
  - right. exists y. auto.
Qed.

Lemma fold_index_skip xs acc k :
  (forall y v, In y xs -> entry y <> Some (k, v)) ->
  oget k (fold_left (indexStep entry) xs acc) = oget k acc.
Proof.
  revert acc. induction xs as [|x xs IH]; simpl; intros acc H; auto.
  rewrite IH by (intros; apply H; auto).
  unfold indexStep. destruct (entry x) as [[k' v']|] eqn:E; auto.
  apply oget_oset_ne. intros ->. now apply (H x v'); auto.
Qed.

Lemma fold_index_last pre x post acc k v :
  entry x = Some (k, v) ->
  (forall y v', In y post -> entry y <> Some (k, v')) ->
  oget k (fold_left (indexStep entry) (pre ++ x :: post) acc) = Some v.
Proof.
  intros He Hpost. rewrite fold_left_app. simpl.
  rewrite fold_index_skip by assumption.
  unfold indexStep at 1. rewrite He. apply oget_oset_eq.
Qed.

Lemma indexBy_NoDup xs : NoDup (okeys (indexBy entry xs)).
Proof. apply fold_index_NoDup. constructor. Qed.

Lemma indexBy_In xs k v :
  In (k, v) (indexBy entry xs) -> exists x, In x xs /\ entry x = Some (k, v).
Proof.
  intros H. apply fold_index_In in H. destruct H as [[]|H]; auto.
Qed.

Lemma indexBy_oget xs k v :
  oget k (indexBy entry xs) = Some v ->
  exists x, In x xs /\ entry x = Some (k, v).
Proof. intros H. now apply indexBy_In, oget_In. Qed.

Lemma indexBy_last pre x post k v :
  entry x = Some (k, v) ->
  (forall y v', In y post -> entry y <> Some (k, v')) ->
  oget k (indexBy entry (pre ++ x :: post)) = Some v.
Proof. apply fold_index_last. Qed.

Lemma indexBy_none xs k :
  (forall y v, In y xs -> entry y <> Some (k, v)) ->
  oget k (indexBy entry xs) = None.
Proof. intros H. unfold indexBy. now rewrite fold_index_skip. Qed.

(** A declared key is a key of the index. *)
Lemma indexBy_declared xs x k v :
  In x xs -> entry x = Some (k, v) -> ohas k (indexBy entry xs) = true.
Proof.
  revert x k v. induction xs as [|y xs IH] using rev_ind; intros x k v Hin He.
  - destruct Hin.
  - unfold indexBy. rewrite fold_left_app. simpl.
    apply in_app_or in Hin. unfold indexStep at 1.
    destruct (entry y) as [[k' v']|] eqn:Ey.
    + destruct (String.eqb k k') eqn:E.
      * apply String.eqb_eq in E. subst k'.
        apply ohas_true. eexists. apply oget_oset_eq.
      * apply String.eqb_neq in E. unfold ohas.
        rewrite oget_oset_ne by assumption.
        destruct Hin as [Hin|[<-|[]]]; [|congruence].
        exact (IH x k v Hin He).
    + destruct Hin as [Hin|[<-|[]]]; [|congruence].
      exact (IH x k v Hin He).
Qed.

End IndexFacts.

(** ** The index built from a schema *)

Lemma okeys_ovalues (V : Type) (key : V -> string) (m : omap V) :
  (forall k v, In (k, v) m -> key v = k) -> map key (ovalues m) = okeys m.
Proof.
  induction m as [|[k v] m IH]; simpl; intros H; auto.
  rewrite (H k v) by now left.
  f_equal. apply IH. intros k' v' Hin. apply H. now right.
Qed.

Lemma indexModels_In s A mA :
  In (A, mA) (indexModels s) ->
  model_name (model mA) = A
  /\ fields mA = indexFields (properties (model mA))
  /\ In (BModel (model mA)) (list_ s).
Proof.
  intros H. apply indexBy_In in H. destruct H as [b [Hb He]].
  destruct b as [m| |]; simpl in He; try discriminate.
  injection He as <- <-. simpl. auto.
Qed.

Lemma indexModels_oget s A mA :
  oget A (indexModels s) = Some mA ->
  model_name (model mA) = A
  /\ fields mA = indexFields (properties (model mA))
  /\ In (BModel (model mA)) (list_ s).
Proof. intros H. now apply indexModels_In, oget_In. Qed.

Lemma indexFields_In ps F f :
  In (F, f) (indexFields ps) ->
  name (field f) = F
  /\ attrs f = indexAttrs (field f)
  /\ In (PField (field f)) ps.
Proof.
  intros H. apply indexBy_In in H. destruct H as [p [Hp He]].
  destruct p as [f0| | | |]; simpl in He; try discriminate.
  injection He as <- <-. simpl. auto.
Qed.

Lemma indexFields_oget ps F f :
  oget F (indexFields ps) = Some f ->
  name (field f) = F
  /\ attrs f = indexAttrs (field f)
  /\ In (PField (field f)) ps.
Proof. intros H. now apply indexFields_In, oget_In. Qed.

Lemma indexModels_names_NoDup s :
  NoDup (map (fun m => model_name (model m)) (ovalues (indexModels s))).
Proof.
  rewrite okeys_ovalues.
  - apply indexBy_NoDup.
  - intros k v H. now apply indexModels_In in H.
Qed.

Lemma indexFields_names_NoDup ps :
  NoDup (map (fun f => name (field f)) (ovalues (indexFields ps))).
Proof.
  rewrite okeys_ovalues.
  - apply indexBy_NoDup.
  - intros k v H. now apply indexFields_In in H.
Qed.

(** A field of an indexed model, by its key. *)
Lemma model_field_name s A mA F f :
  oget A (indexModels s) = Some mA ->
  oget F (fields mA) = Some f ->
  name (field f) = F.
Proof.
  intros HA HF. apply indexModels_oget in HA. destruct HA as (_ & Hf & _).
  rewrite Hf in HF. now apply indexFields_oget in HF.
Qed.

Lemma model_fields_NoDup s mA :
  In mA (ovalues (indexModels s)) ->
  NoDup (map (fun f => name (field f)) (ovalues (fields mA))).
Proof.
  intros H. apply In_ovalues in H. destruct H as [A H].
  apply indexModels_In in H. destruct H as (_ & Hf & _).
  rewrite Hf. apply indexFields_names_NoDup.
Qed.

(** ** Loops that may throw *)

Section ForOf.

Variables S X : Type.

Variable body : S -> X -> result S.

Lemma forOf_cons_ok x xs s s' :
  forOf body (x :: xs) s = Ok s' <->
  exists s1, body s x = Ok s1 /\ forOf body xs s1 = Ok s'.
Proof.
  simpl. unfold bind. destruct (body s x) as [s1|e].
  - split.
    + intros H. exists s1. split; [reflexivity | exact H].
    + intros [s2 [H1 H2]]. now injection H1 as ->.
  - split; [discriminate|]. intros [s1 [H _]]. discriminate.
Qed.

Lemma forOf_app xs ys s :
  forOf body (xs ++ ys) s = (s' <- forOf body xs s ;; forOf body ys s').
Proof.
  revert s. induction xs as [|x xs IH]; intros s; simpl; auto.
  unfold bind at 1 3. destruct (body s x); auto.
Qed.

End ForOf.

Lemma firstError_app (A : Type) (l1 l2 : list (result A)) :
  firstError (l1 ++ l2) =
  match firstError l1 with Some e => Some e | None => firstError l2 end.
Proof.
  induction l1 as [|[a|e] l1 IH]; simpl; auto.
Qed.

Lemma firstError_None (A : Type) (l : list (result A)) :
  firstError l = None <-> forall r, In r l -> exists a, r = inl a.
Proof.
  induction l as [|[a|e] l IH]; simpl.
  - split; auto. intros _ r [].
  - rewrite IH. split.
    + intros H r [<-|Hr]; eauto.
    + intros H r Hr. apply H. now right.
  - split; [discriminate|]. intros H.
    destruct (H (inr e)) as [a Ha]; [now left | discriminate].
Qed.

Lemma firstError_In (A : Type) (l : list (result A)) (e : TranslateError) :
  firstError l = Some e -> In (inr e) l.
Proof.
  induction l as [|[a|e'] l IH]; simpl; try discriminate.
  - intros H. right. auto.
  - intros [= ->]. now left.
Qed.

(** ** The loop body as a classification followed by one write *)

Lemma recordLinkId_linkIdOf f ids :
  recordLinkId f ids =
  (id <- linkIdOf f ;;
   Ok (match id with Some i => sadd i ids | None => ids end)).
Proof.
  unfold recordLinkId, linkIdOf.
  destruct (idFields f) as [[k [s|n|b|nm ps|[|id [|id' l]]|items]]|];
    reflexivity.
Qed.

Lemma translateField_classify models enums owner t f :
  translateField models enums owner t f =
  (o <- classify models enums owner f ;; Ok (place t (name (field f)) o)).
Proof.
  unfold translateField, classify.
  destruct (isLink models f) as [n|].
  - destruct (member n models) as [target| |]; [|reflexivity|reflexivity].
    destruct (1 <? _)%nat; [reflexivity|].
    destruct (linkPair _ _) as [|g l]; [|reflexivity].
    rewrite recordLinkId_linkIdOf.
    destruct (linkIdOf f) as [id|e]; [|reflexivity]. simpl.
    destruct (edbPointer enums true f); reflexivity.
  - destruct (edbPointer enums false f); reflexivity.
Qed.

(** ** String sets *)

Lemma shas_sadd_same k s : shas k (sadd k s) = true.
Proof.
  unfold sadd. destruct (shas k s) eqn:E; auto.
  unfold shas. rewrite existsb_app. simpl.
  rewrite String.eqb_refl. now rewrite orb_true_r.
Qed.

Lemma shas_sadd_keep k k' s : shas k s = true -> shas k (sadd k' s) = true.
Proof.
  intros H. unfold sadd. destruct (shas k' s); auto.
  unfold shas in *. rewrite existsb_app. now rewrite H.
Qed.

Lemma shas_sadd_inv k k' s :
  shas k (sadd k' s) = true -> k = k' \/ shas k s = true.
Proof.
  unfold sadd. destruct (shas k' s); auto.
  unfold shas. rewrite existsb_app. simpl. rewrite orb_false_r.
  intros H. apply orb_true_iff in H. destruct H as [H|H]; auto.
  left. now apply String.eqb_eq.
Qed.

(** ** One model: the loop over its fields *)

Lemma slot_place_ne F k t o : F <> k -> slot F (place t k o) = slot F t.
Proof.
  intros Hne. unfold slot.
  destruct o as [b|id p|p]; simpl; now rewrite oget_oset_ne.
Qed.

Lemma slot_place_congr k t1 t2 o :
  slot k t1 = slot k t2 -> slot k (place t1 k o) = slot k (place t2 k o).
Proof.
  unfold slot. intros [= H1 H2 H3].
  destruct o as [b|id p|p]; simpl; rewrite !oget_oset_eq; congruence.
Qed.

Lemma slot_place_empty k o :
  slot k (place emptyType k o) =
  match o with
  | ComputedBacklink b => (None, None, Some b)
  | StoredLink _ p => (None, Some p, None)
  | StoredProp p => (Some p, None, None)
  end.
Proof.
  unfold slot. destruct o as [b|id p|p]; simpl;
    now rewrite String.eqb_refl.
Qed.

Section Fields.

Variable models : omap IndexedModel.

Variable enums : omap EnumAst.

Variable owner : IndexedModel.

Local Abbreviation body := (translateField models enums owner).

Local Abbreviation cls := (classify models enums owner).

Local Abbreviation nameOf := (fun f : ExtendedField => name (field f)).

Lemma fields_cons_ok f fs t t' :
  forOf body (f :: fs) t = Ok t' <->
  exists o, cls f = Ok o
            /\ forOf body fs (place t (name (field f)) o) = Ok t'.
Proof.
  rewrite forOf_cons_ok. rewrite translateField_classify.
  unfold bind. destruct (cls f) as [o|e].
  - split.
    + intros [s1 [H1 H2]]. exists o. split; auto.
      now injection H1 as <-.
    + intros [o' [H1 H2]]. injection H1 as <-. eauto.
  - split; [intros [s1 [H _]] | intros [o [H _]]]; discriminate.
Qed.

Lemma fields_frame fs t t' F :
  forOf body fs t = Ok t' ->
  ~ In F (map nameOf fs) ->
  slot F t' = slot F t.
Proof.
  revert t. induction fs as [|f fs IH]; intros t H Hnot.
  - simpl in H. now injection H as <-.
  - apply fields_cons_ok in H. destruct H as [o [_ H]].
    simpl in Hnot. rewrite (IH _ H) by tauto.
    apply slot_place_ne. intros ->. tauto.
Qed.

Lemma fields_placed fs t t' f :
  forOf body fs t = Ok t' ->
  NoDup (map nameOf fs) ->
  In f fs ->
  exists o, cls f = Ok o
            /\ slot (name (field f)) t'
               = slot (name (field f)) (place t (name (field f)) o).
Proof.
  revert t. induction fs as [|x fs IH]; intros t H Hnd Hin; [destruct Hin|].
  apply fields_cons_ok in H. destruct H as [ox [Hx H]].
  simpl in Hnd. inversion Hnd as [|? ? Hnot Hnd']; subst.
  destruct Hin as [->|Hin].
  - exists ox. split; auto. eapply fields_frame; eassumption.
  - destruct (IH _ H Hnd' Hin) as [o [Ho Hs]].
    exists o. split; auto. rewrite Hs.
    apply slot_place_congr, slot_place_ne.
    intros Heq. apply Hnot. rewrite <- Heq.
    now apply (in_map nameOf).
Qed.

Lemma fields_linkIds_keep fs t t' n :
  forOf body fs t = Ok t' ->
  shas n (linkIds t) = true ->
  shas n (linkIds t') = true.
Proof.
  revert t. induction fs as [|f fs IH]; intros t H Hn.
  - simpl in H. now injection H as <-.
  - apply fields_cons_ok in H. destruct H as [o [_ H]].
    apply (IH _ H).
    destruct o as [b|[i|] p|p]; simpl; auto.
    now apply shas_sadd_keep.
Qed.

Lemma fields_linkIds_recorded fs t t' f id p :
  forOf body fs t = Ok t' ->
  In f fs ->
  cls f = Ok (StoredLink (Some id) p) ->
  shas id (linkIds t') = true.
Proof.
  revert t. induction fs as [|x fs IH]; intros t H Hin Hc; [destruct Hin|].
  apply fields_cons_ok in H. destruct H as [ox [Hx H]].
  destruct Hin as [->|Hin].
  - rewrite Hc in Hx. injection Hx as <-.
    eapply fields_linkIds_keep; [eassumption|]. simpl. apply shas_sadd_same.
  - eapply IH; eauto.
Qed.

Lemma fields_linkIds_origin fs t t' n :
  forOf body fs t = Ok t' ->
  shas n (linkIds t') = true ->
  shas n (linkIds t) = true
  \/ exists f p, In f fs /\ cls f = Ok (StoredLink (Some n) p).
Proof.
  revert t. induction fs as [|x fs IH]; intros t H Hn.
  - simpl in H. injection H as <-. now left.
  - apply fields_cons_ok in H. destruct H as [ox [Hx H]].
    destruct (IH _ H Hn) as [Hin|[f [p [Hf Hc]]]].
    + destruct ox as [b|[i|] p|p]; simpl in Hin; auto.
      apply shas_sadd_inv in Hin. destruct Hin as [->|Hin]; auto.
      right. exists x, p. split; [now left | exact Hx].
    + right. exists f, p. split; [now right | exact Hc].
Qed.

(** The loop stops at the first field whose classification throws;
    the accumulated type plays no part in that. *)
Lemma fields_run fs t :
  match firstError (map cls fs) with
  | Some e => forOf body fs t = Throw e
  | None => exists t', forOf body fs t = Ok t'
  end.
Proof.
  revert t. induction fs as [|f fs IH]; intros t; simpl.
  - now exists t.
  - rewrite translateField_classify. destruct (cls f) as [o|e]; simpl.
    + apply IH.
    + reflexivity.
Qed.

End Fields.

(** ** The schema: the loop over its models *)

Section Models.

Variable models : omap IndexedModel.

Variable enums : omap EnumAst.

Local Abbreviation mbody := (translateModel models enums).

Local Abbreviation mname := (fun m : IndexedModel => model_name (model m)).

Local Abbreviation steps :=
  (fun m : IndexedModel => map (classify models enums m) (ovalues (fields m))).

Lemma models_cons_ok m ms tys tys' :
  forOf mbody (m :: ms) tys = Ok tys' <->
  exists ty, translateFields models enums m = Ok ty
             /\ forOf mbody ms (oset (model_name (model m)) ty tys) = Ok tys'.
Proof.
  rewrite forOf_cons_ok. unfold translateModel. fold (translateFields models enums m).
  unfold bind. destruct (translateFields models enums m) as [ty|e].
  - split.
    + intros [s1 [H1 H2]]. exists ty. split; auto.
      now injection H1 as <-.
    + intros [ty' [H1 H2]]. injection H1 as <-. eauto.
  - split; [intros [s1 [H _]] | intros [o [H _]]]; discriminate.
Qed.

Lemma models_frame ms tys tys' A :
  forOf mbody ms tys = Ok tys' ->
  ~ In A (map mname ms) ->
  oget A tys' = oget A tys.
Proof.
  revert tys. induction ms as [|m ms IH]; intros tys H Hnot.
  - simpl in H. now injection H as <-.
  - apply models_cons_ok in H. destruct H as [ty [_ H]].
    simpl in Hnot. rewrite (IH _ H) by tauto.
    apply oget_oset_ne. intros ->. tauto.
Qed.

Lemma models_placed ms tys tys' m :
  forOf mbody ms tys = Ok tys' ->
  NoDup (map mname ms) ->
  In m ms ->
  exists ty, translateFields models enums m = Ok ty
             /\ oget (model_name (model m)) tys' = Some ty.
Proof.
  revert tys. induction ms as [|x ms IH]; intros tys H Hnd Hin; [destruct Hin|].
  apply models_cons_ok in H. destruct H as [tx [Hx H]].
  simpl in Hnd. inversion Hnd as [|? ? Hnot Hnd']; subst.
  destruct Hin as [->|Hin].
  - exists tx. split; auto.
    erewrite models_frame; [|eassumption|assumption].
    apply oget_oset_eq.
  - eapply IH; eauto.
Qed.

Lemma models_origin ms tys tys' A ty :
  forOf mbody ms tys = Ok tys' ->
  oget A tys' = Some ty ->
  oget A tys = Some ty
  \/ exists m, In m ms /\ model_name (model m) = A
               /\ translateFields models enums m = Ok ty.
Proof.
  revert tys. induction ms as [|x ms IH]; intros tys H Hget.
  - simpl in H. injection H as <-. now left.
  - apply models_cons_ok in H. destruct H as [tx [Hx H]].
    destruct (IH _ H Hget) as [Hin|[m [Hm [Hn Ht]]]].
    + destruct (string_dec A (model_name (model x))) as [->|Hne].
      * rewrite oget_oset_eq in Hin. injection Hin as <-.
        right. exists x. split; [now left | auto].
      * rewrite oget_oset_ne in Hin by assumption. now left.
    + right. exists m. split; [now right | auto].
Qed.

Lemma models_run ms tys :
  match firstError (flat_map steps ms) with
  | Some e => forOf mbody ms tys = Throw e
  | None => exists tys', forOf mbody ms tys = Ok tys'
  end.
Proof.
  revert tys. induction ms as [|m ms IH]; intros tys; simpl.
  - now exists tys.
  - rewrite firstError_app.
    pose proof (fields_run models enums m (ovalues (fields m)) emptyType) as Hm.
    destruct (firstError (map _ (ovalues (fields m)))) as [e|].
    + unfold translateModel. now rewrite Hm.
    + destruct Hm as [ty Hty].
      specialize (IH (oset (model_name (model m)) ty tys)).
      destruct (firstError (flat_map _ ms)) as [e|];
        unfold translateModel; rewrite Hty; simpl; exact IH.
Qed.

End Models.

Lemma translateSchema_ok s out :
  translateSchema s = Ok out <->
  enums out = translateEnums s
  /\ forOf (translateModel (indexModels s) (translateEnums s))
           (ovalues (indexModels s)) [] = Ok (types out).
Proof.
  unfold translateSchema, bind.
  destruct (forOf _ _ _) as [tys|e].
  - split.
    + intros H. injection H as <-. simpl. auto.
    + intros [He Ht]. injection Ht as ->.
      destruct out as [en ty]. simpl in *. now subst.
  - split; [discriminate | intros [_ H]; discriminate].
Qed.

(** Every indexed model has its object type in a successful result, and
    every object type of the result comes from an indexed model. *)
Lemma translateSchema_type s out A mA :
  translateSchema s = Ok out ->
  oget A (indexModels s) = Some mA ->
  exists ty, oget A (types out) = Some ty
             /\ translateFields (indexModels s) (translateEnums s) mA = Ok ty.
Proof.
  intros H HA. apply translateSchema_ok in H. destruct H as [_ H].
  destruct (indexModels_oget _ _ HA) as (Hn & _ & _).
  edestruct models_placed as [ty [Ht Hg]];
    [exact H | apply indexModels_names_NoDup
     | eapply oget_ovalues; exact HA |].
  exists ty. split; auto. now rewrite Hn in Hg.
Qed.

Lemma translateSchema_type_origin s out A ty :
  translateSchema s = Ok out ->
  oget A (types out) = Some ty ->
  exists mA, oget A (indexModels s) = Some mA
             /\ translateFields (indexModels s) (translateEnums s) mA = Ok ty.
Proof.
  intros H Hget. apply translateSchema_ok in H. destruct H as [_ H].
  edestruct models_origin as [Hin|[m [Hm [Hn Ht]]]];
    [exact H | exact Hget | |].
  - discriminate.
  - exists m. split; auto.
    apply In_ovalues in Hm. destruct Hm as [k Hk].
    pose proof (indexModels_In _ _ _ Hk) as (Hk' & _ & _).
    apply In_oget; [apply indexBy_NoDup|]. congruence.
Qed.

(** The error of a field does not depend on the accumulated type. *)
Lemma fieldError_classify s m f :
  fieldError s (m, f) =
  match classify (indexModels s) (translateEnums s) m f with
  | inl _ => None
  | inr e => Some e
  end.
Proof.
  unfold fieldError. simpl. rewrite translateField_classify.
  now destruct (classify _ _ m f).
Qed.

Lemma fieldError_throws s m f e :
  fieldError s (m, f) = Some e <->
  forall t, translateField (indexModels s) (translateEnums s) m t f = Throw e.
Proof.
  rewrite fieldError_classify. split.
  - intros H t. rewrite translateField_classify.
    destruct (classify _ _ m f); [discriminate | now injection H as ->].
  - intros H. specialize (H emptyType).
    rewrite translateField_classify in H.
    destruct (classify _ _ m f); [discriminate | now injection H as ->].
Qed.

Lemma map_flat_map_pair (A B C : Type) (g : A -> B -> C) (h : A -> list B)
    (l : list A) :
  map (fun x => g (fst x) (snd x)) (flat_map (fun a => map (pair a) (h a)) l)
  = flat_map (fun a => map (g a) (h a)) l.
Proof.
  induction l as [|a l IH]; simpl; auto.
  rewrite map_app, map_map. simpl. now rewrite IH.
Qed.

(** [translateSchema] returns the error of the first field, in processing
    order, whose loop body throws, and a schema when there is none. *)
Lemma translateSchema_run s :
  match firstError
          (map (fun x => classify (indexModels s) (translateEnums s)
                                  (fst x) (snd x))
               (workList s)) with
  | Some e => translateSchema s = Throw e
  | None => exists out, translateSchema s = Ok out
  end.
Proof.
  unfold workList, translateSchema.
  pose proof (models_run (indexModels s) (translateEnums s)
                (ovalues (indexModels s)) []) as H.
  replace (map _ (flat_map _ _))
    with (flat_map
            (fun m => map (classify (indexModels s) (translateEnums s) m)
                          (ovalues (fields m)))
            (ovalues (indexModels s))).
  - destruct (firstError _) as [e|].
    + now rewrite H.
    + destruct H as [tys ->]. simpl. eauto.
  - symmetry. apply map_flat_map_pair.
Qed.

Lemma translateSchema_first_error s pre x post e :
  workList s = (pre ++ x :: post)%list ->
  (forall y, In y pre -> fieldError s y = None) ->
  fieldError s x = Some e ->
  translateSchema s = Throw e.
Proof.
  intros Hw Hpre Hx. pose proof (translateSchema_run s) as H.
  rewrite Hw, map_app, firstError_app in H. simpl in H.
  assert (Hnone : firstError
            (map (fun y => classify (indexModels s) (translateEnums s)
                                    (fst y) (snd y)) pre) = None).
  { apply firstError_None. intros r Hr. apply in_map_iff in Hr.
    destruct Hr as [[m f] [<- Hy]]. specialize (Hpre _ Hy).
    rewrite fieldError_classify in Hpre. simpl.
    destruct (classify _ _ m f); [eauto | discriminate]. }
  rewrite Hnone in H. destruct x as [m f].
  rewrite fieldError_classify in Hx. simpl in H.
  destruct (classify _ _ m f); [discriminate|].
  now injection Hx as ->.
Qed.

Lemma translateSchema_some_error s x e :
  In x (workList s) ->
  fieldError s x = Some e ->
  exists e', translateSchema s = Throw e'.
Proof.
  intros Hin Hx. pose proof (translateSchema_run s) as H.
  destruct (firstError _) as [e'|] eqn:E; [eauto|].
  exfalso. rewrite firstError_None in E.
  destruct x as [m f]. rewrite fieldError_classify in Hx.
  destruct (classify _ _ m f) as [o|e0] eqn:Ec; [discriminate|].
  destruct (E (inr e0)) as [a Ha]; [|discriminate].
  apply in_map_iff. exists (m, f). split; auto.
Qed.

Lemma workList_In s A mA F f :
  oget A (indexModels s) = Some mA ->
  oget F (fields mA) = Some f ->
  In (mA, f) (workList s).
Proof.
  intros HA HF. unfold workList. apply in_flat_map.
  exists mA. split; [eapply oget_ovalues; eauto|].
  apply in_map. eapply oget_ovalues; eauto.
Qed.

(** What a successful run holds for a field of an indexed model. *)
Lemma translateSchema_slot s out A mA F f :
  translateSchema s = Ok out ->
  oget A (indexModels s) = Some mA ->
  oget F (fields mA) = Some f ->
  exists ty o,
    oget A (types out) = Some ty
    /\ translateFields (indexModels s) (translateEnums s) mA = Ok ty
    /\ classify (indexModels s) (translateEnums s) mA f = Ok o
    /\ slot F ty =
       match o with
       | ComputedBacklink b => (None, None, Some b)
       | StoredLink _ p => (None, Some p, None)
       | StoredProp p => (Some p, None, None)
       end.
Proof.
  intros H HA HF.
  destruct (translateSchema_type _ _ H HA) as [ty [Hty Hrun]].
  pose proof (model_field_name _ _ _ HA HF) as Hname.
  edestruct fields_placed as [o [Ho Hs]];
    [exact Hrun | eapply model_fields_NoDup, oget_ovalues; exact HA
     | eapply oget_ovalues; exact HF |].
  exists ty, o. rewrite Hname in Hs.
  rewrite slot_place_empty in Hs. auto.
Qed.

(** ** The classification of one field *)

Lemma isLink_own models f n target :
  fieldType (field f) = TName n ->
  oget n models = Some target ->
  isLink models f = Some n.
Proof.
  intros Ht Hg. unfold isLink. now rewrite Ht, (member_Own _ _ Hg).
Qed.

Lemma isLink_inherited models f n :
  fieldType (field f) = TName n ->
  oget n models = None ->
  inherited n = true ->
  isLink models f = Some n /\ member n models = Inherited n.
Proof.
  intros Ht Hg Hi. unfold isLink, member. now rewrite Ht, Hg, Hi.
Qed.

Lemma isLink_Some models f n :
  isLink models f = Some n ->
  fieldType (field f) = TName n
  /\ ((exists target, oget n models = Some target)
      \/ (oget n models = None /\ inherited n = true)).
Proof.
  unfold isLink, member. destruct (fieldType (field f)) as [n'|nm ps];
    [|discriminate].
  destruct (oget n' models) as [target|] eqn:Hg.
  - intros [= <-]. split; [reflexivity|]. left. now exists target.
  - destruct (inherited n') eqn:Hi; [|discriminate]. intros [= <-]. auto.
Qed.

Lemma isLink_None_name models f n :
  fieldType (field f) = TName n ->
  (isLink models f = None <-> oget n models = None /\ inherited n = false).
Proof.
  intros H. unfold isLink. rewrite H. rewrite <- member_Undefined.
  destruct (member n models); split; congruence.
Qed.

Lemma isLink_None models f :
  isLink models f = None ->
  (exists n, fieldType (field f) = TName n
             /\ oget n models = None /\ inherited n = false)
  \/ (exists fn ps, fieldType (field f) = TFunc fn ps).
Proof.
  intros H. destruct (fieldType (field f)) as [n|fn ps] eqn:Ht; [left|eauto].
  exists n. split; auto. now apply (isLink_None_name models f Ht).
Qed.

Lemma edbPointer_link enums f n :
  fieldType (field f) = TName n ->
  edbPointer enums true f =
  Ok {| kind := link;
        multi := truthy (array (field f));
        required := if truthy (array (field f)) then false
                    else negb (truthy (optional (field f)));
        type_ := n;
        exclusive := ohas "unique" (attrs f);
        default := getFieldDefault enums f |}.
Proof. intros H. unfold edbPointer. now rewrite H. Qed.

Lemma edbPointer_ok enums asLink f p :
  edbPointer enums asLink f = Ok p ->
  kind p = (if asLink then link else property)
  /\ multi p = truthy (array (field f))
  /\ required p = (if truthy (array (field f)) then false
                   else negb (truthy (optional (field f))))
  /\ exclusive p = ohas "unique" (attrs f)
  /\ default p = getFieldDefault enums f.
Proof.
  unfold edbPointer, bind.
  destruct (match fieldType (field f) with
            | TName n => _
            | TFunc _ _ => _
            end) as [ty|e]; [|discriminate].
  intros H. injection H as <-. simpl. auto.
Qed.

Lemma edbPointer_enum enums f n :
  fieldType (field f) = TName n ->
  ohas n enums = true ->
  edbPointer enums false f =
  Ok {| kind := property;
        multi := truthy (array (field f));
        required := if truthy (array (field f)) then false
                    else negb (truthy (optional (field f)));
        type_ := n;
        exclusive := ohas "unique" (attrs f);
        default := getFieldDefault enums f |}.
Proof. intros Ht He. unfold edbPointer. now rewrite Ht, He. Qed.

Lemma edbPointer_scalar enums f n scalar :
  fieldType (field f) = TName n ->
  ohas n enums = false ->
  oget n typeMapping = Some scalar ->
  edbPointer enums false f =
  Ok {| kind := property;
        multi := truthy (array (field f));
        required := if truthy (array (field f)) then false
                    else negb (truthy (optional (field f)));
        type_ := scalar;
        exclusive := ohas "unique" (attrs f);
        default := getFieldDefault enums f |}.
Proof.
  intros Ht He Hs. unfold edbPointer, mapPrismaTypeToEdgeDBScalar.
  now rewrite Ht, He, (member_Own _ _ Hs).
Qed.

Lemma edbPointer_unknown enums f n :
  fieldType (field f) = TName n ->
  ohas n enums = false ->
  oget n typeMapping = None ->
  inherited n = false ->
  edbPointer enums false f = Throw UnknownScalarTypeError.
Proof.
  intros Ht He Hs Hi. unfold edbPointer, mapPrismaTypeToEdgeDBScalar, member.
  now rewrite Ht, He, Hs, Hi.
Qed.

Lemma edbPointer_function enums asLink f fn ps :
  fieldType (field f) = TFunc fn ps ->
  edbPointer enums asLink f
  = Throw (match ps with
           | Some _ => FunctionTypeUnsupportedError
           | None => RuntimeTypeError
           end).
Proof.
  intros Ht. unfold edbPointer, mapPrismaTypeToEdgeDBScalar. rewrite Ht.
  now destruct ps.
Qed.

(** A classification never reaches the "no target" throw: the link test
    has already found the target under the same key. *)
Lemma classify_not_missing models enums owner f :
  classify models enums owner f <> Throw MissingRelationTargetError.
Proof.
  unfold classify. intros H.
  destruct (isLink models f) as [n|] eqn:E.
  - apply isLink_Some in E. destruct E as [Ht [[target Hg]|[Hg Hi]]].
    + rewrite (member_Own _ _ Hg) in H.
      destruct (1 <? _)%nat; [discriminate H|].
      destruct (linkPair _ _); [|discriminate H].
      rewrite (edbPointer_link enums f Ht) in H.
      unfold linkIdOf in H.
      destruct (idFields f) as [[k [s|n'|b|nm ps|[|id [|id' l]]|items]]|];
        discriminate H.
    + unfold member in H. rewrite Hg, Hi in H. discriminate H.
  - unfold edbPointer, mapPrismaTypeToEdgeDBScalar in H.
    destruct (fieldType (field f)) as [n|nm [ps|]];
      [|cbn [bind] in H; discriminate H..].
    destruct (ohas n enums); cbn [bind orb] in H;
      [discriminate H|].
    destruct (member n typeMapping); cbn [bind] in H;
      discriminate H.
Qed.

Lemma classify_backlink models enums owner f n target g rest :
  fieldType (field f) = TName n ->
  oget n models = Some target ->
  linkPair target (model_name (model owner)) = g :: rest ->
  classify models enums owner f =
  if (1 <? length (g :: rest))%nat then Throw AmbiguousBacklinkError
  else Ok (ComputedBacklink
             {| expr := ".<" ++ name (field g) ++ "[is "
                        ++ model_name (model target) ++ "];";
                bl_multi := truthy (array (field f)) |}).
Proof.
  intros Ht Hg Hp. unfold classify.
  rewrite (isLink_own models f Ht Hg), (member_Own _ _ Hg), Hp. reflexivity.
Qed.

Lemma classify_owning models enums owner f n target :
  fieldType (field f) = TName n ->
  oget n models = Some target ->
  linkPair target (model_name (model owner)) = [] ->
  classify models enums owner f =
  (id <- linkIdOf f ;; p <- edbPointer enums true f ;; Ok (StoredLink id p)).
Proof.
  intros Ht Hg Hp. unfold classify.
  rewrite (isLink_own models f Ht Hg), (member_Own _ _ Hg), Hp. reflexivity.
Qed.

Lemma classify_nonlink models enums owner f :
  isLink models f = None ->
  classify models enums owner f =
  (p <- edbPointer enums false f ;; Ok (StoredProp p)).
Proof. intros E. unfold classify. now rewrite E. Qed.

Lemma classify_prop_inv models enums owner f p :
  classify models enums owner f = Ok (StoredProp p) ->
  isLink models f = None /\ edbPointer enums false f = Ok p.
Proof.
  unfold classify. intros H. destruct (isLink models f) as [n|].
  - destruct (member n models); [|discriminate H..].
    destruct (1 <? _)%nat; [discriminate H|].
    destruct (linkPair _ _); [|discriminate H].
    destruct (linkIdOf f); cbn [bind] in H; [|discriminate H].
    destruct (edbPointer enums true f); cbn [bind] in H; discriminate H.
  - destruct (edbPointer enums false f); cbn [bind] in H; [|discriminate H].
    injection H as ->. auto.
Qed.

Lemma classify_link_inv models enums owner f id p :
  classify models enums owner f = Ok (StoredLink id p) ->
  exists n target,
    fieldType (field f) = TName n
    /\ oget n models = Some target
    /\ linkPair target (model_name (model owner)) = []
    /\ linkIdOf f = Ok id
    /\ edbPointer enums true f = Ok p.
Proof.
  unfold classify. intros H. destruct (isLink models f) as [n|] eqn:E.
  - apply isLink_Some in E. destruct E as [Ht _].
    destruct (member n models) as [target| |] eqn:Hg; [|discriminate H..].
    apply member_Own_inv in Hg.
    destruct (1 <? _)%nat; [discriminate H|].
    destruct (linkPair _ _) eqn:Ep; [|discriminate H].
    destruct (linkIdOf f) as [id'|] eqn:El; cbn [bind] in H;
      [|discriminate H].
    destruct (edbPointer enums true f) as [p'|] eqn:Eq; cbn [bind] in H;
      [|discriminate H].
    injection H as -> ->.
    exists n, target. repeat split; auto.
  - destruct (edbPointer enums false f); cbn [bind] in H; discriminate H.
Qed.

Lemma classify_backlink_inv models enums owner f b :
  classify models enums owner f = Ok (ComputedBacklink b) ->
  exists n target g,
    fieldType (field f) = TName n
    /\ oget n models = Some target
    /\ linkPair target (model_name (model owner)) = [g]
    /\ b = {| expr := ".<" ++ name (field g) ++ "[is "
                      ++ model_name (model target) ++ "];";
              bl_multi := truthy (array (field f)) |}.
Proof.
  unfold classify. intros H. destruct (isLink models f) as [n|] eqn:E.
  - apply isLink_Some in E. destruct E as [Ht _].
    destruct (member n models) as [target| |] eqn:Hg; [|discriminate H..].
    apply member_Own_inv in Hg.
    destruct (linkPair _ _) as [|g [|g' l]] eqn:Ep; simpl in H.
    + destruct (linkIdOf f) as [id'|]; cbn [bind] in H; [|discriminate H].
      destruct (edbPointer enums true f) as [p'|]; cbn [bind] in H;
        discriminate H.
    + injection H as <-. exists n, target, g. repeat split; auto.
    + discriminate H.
  - destruct (edbPointer enums false f); cbn [bind] in H; discriminate H.
Qed.

Lemma linkIdOf_Some f id :
  linkIdOf f = Ok (Some id) <->
  exists kv, idFields f = Some kv /\ value kv = VRelArray [id].
Proof.
  unfold linkIdOf.
  destruct (idFields f) as [[k v]|]; simpl.
  - split.
    + intros H. exists {| key := k; value := v |}. split; auto. simpl.
      destruct v as [s|n'|b|nm ps|[|i [|i' l]]|items];
        try discriminate H. now injection H as ->.
    + intros (kv & Hkv & Hv). injection Hkv as <-. simpl in Hv. now subst v.
  - split; [discriminate | intros (kv & Hkv & _); discriminate].
Qed.

(** ** The repository's example *)

Example example_translates : translateSchema exampleSchema = Ok exampleTarget.
Proof. vm_compute. reflexivity. Qed.

Example example_renders : renderSchemaAst exampleTarget = exampleOutput.
Proof. vm_compute. reflexivity. Qed.

(** ** Quoted literals *)

Lemma sapp_assoc (a b c : string) : (a ++ b) ++ c = a ++ b ++ c.
Proof. induction a as [|x a IH]; simpl; congruence. Qed.

Lemma sapp_nil_r (a : string) : a ++ EmptyString = a.
Proof. induction a as [|x a IH]; simpl; congruence. Qed.

Lemma JSON_stringify_quoted v :
  JSON_stringify v = chr 34 ++ jsonEscapeAll v ++ chr 34.
Proof. reflexivity. Qed.

Example JSON_stringify_plain :
  JSON_stringify "draft" = chr 34 ++ "draft" ++ chr 34.
Proof. reflexivity. Qed.

Example JSON_stringify_escapes :
  JSON_stringify ("a" ++ chr 34 ++ "b" ++ chr 92 ++ chr 10 ++ chr 1)
  = chr 34 ++ "a" ++ chr 92 ++ chr 34 ++ "b" ++ chr 92 ++ chr 92
    ++ chr 92 ++ "n" ++ chr 92 ++ "u0001" ++ chr 34.
Proof. reflexivity. Qed.

Lemma jsonEscape_plain c :
  plainChar c = true -> jsonEscape c = String c EmptyString.
Proof.
  destruct c as [[] [] [] [] [] [] [] []]; intros H;
    first [reflexivity | discriminate H].
Qed.

Lemma jsonEscapeAll_plain v : plain v = true -> jsonEscapeAll v = v.
Proof.
  induction v as [|c v IH]; simpl; [reflexivity|].
  intros H. apply andb_prop in H. destruct H as [Hc Hv].
  now rewrite (jsonEscape_plain c Hc), (IH Hv).
Qed.

Lemma literalBody_escape c rest :
  literalBody (jsonEscape c ++ rest) = option_map (String c) (literalBody rest).
Proof.
  destruct c as [[] [] [] [] [] [] [] []]; reflexivity.
Qed.

Lemma literalBody_escapeAll v :
  literalBody (jsonEscapeAll v ++ chr 34) = Some v.
Proof.
  induction v as [|c v IH]; [reflexivity|].
  cbn [jsonEscapeAll]. rewrite sapp_assoc, literalBody_escape, IH.
  reflexivity.
Qed.

Lemma readLiteral_stringify v : readLiteral (JSON_stringify v) = Some v.
Proof. exact (literalBody_escapeAll v). Qed.

(** ** Failing runs *)

Lemma failsWith_intro s x e :
  In x (workList s) -> fieldError s x = Some e -> failsWith s x e.
Proof.
  intros Hin He. destruct x as [m f]. repeat split.
  - now apply fieldError_throws.
  - eapply translateSchema_some_error; eauto.
  - intros pre post Hw Hpre. eapply translateSchema_first_error; eauto.
Qed.

Lemma translateSchema_error_origin s e :
  translateSchema s = Throw e ->
  exists m f,
    In (m, f) (workList s)
    /\ classify (indexModels s) (translateEnums s) m f = Throw e.
Proof.
  intros H. pose proof (translateSchema_run s) as Hrun.
  destruct (firstError _) as [e'|] eqn:E.
  - rewrite Hrun in H. injection H as ->.
    apply firstError_In, in_map_iff in E.
    destruct E as [[m f] [Hc Hin]]. exists m, f. auto.
  - destruct Hrun as [out Hout]. congruence.
Qed.

(** ** Names held by an object type *)

Lemma In_okeys_ohas (V : Type) (k : string) (m : omap V) :
  In k (okeys m) <-> ohas k m = true.
Proof.
  destruct (ohas k m) eqn:E.
  - split; auto. intros _.
    destruct (in_dec string_dec k (okeys m)) as [H|H]; auto.
    apply oget_None, ohas_false in H. congruence.
  - apply ohas_false, oget_None in E. split; [tauto | discriminate].
Qed.

(** A name that is no key of the model's fields is in no map of its type. *)
Lemma translateFields_absent s mA ty F :
  In mA (ovalues (indexModels s)) ->
  translateFields (indexModels s) (translateEnums s) mA = Ok ty ->
  oget F (fields mA) = None ->
  slot F ty = (None, None, None).
Proof.
  intros Hin Hrun HF. unfold translateFields in Hrun.
  change (None, None, None) with (slot F emptyType).
  eapply fields_frame; [exact Hrun|].
  apply In_ovalues in Hin. destruct Hin as [A Hin].
  apply indexModels_In in Hin. destruct Hin as (_ & Hf & _).
  rewrite okeys_ovalues.
  - now apply oget_None.
  - rewrite Hf. intros k v Hkv. now apply indexFields_In in Hkv.
Qed.

(** ** The rendered text *)

(** An element of a joined list is a segment of the joined text. *)
Lemma concat_In sep l x :
  In x l -> exists a b, String.concat sep l = a ++ x ++ b.
Proof.
  induction l as [|y [|z l] IH]; intros Hin.
  - destruct Hin.
  - destruct Hin as [->|[]]. exists EmptyString, EmptyString.
    simpl. now rewrite sapp_nil_r.
  - destruct Hin as [->|Hin].
    + exists EmptyString, (sep ++ String.concat sep (z :: l)). reflexivity.
    + destruct (IH Hin) as (a & b & Hab).
      exists (y ++ sep ++ a), b.
      change (String.concat sep (y :: z :: l))
        with (y ++ sep ++ String.concat sep (z :: l)).
      rewrite Hab. now rewrite !sapp_assoc.
Qed.

Lemma renderSchemaAst_enum_line out n ea :
  In (n, ea) (enums out) ->
  exists a b, renderSchemaAst out = a ++ renderEnum (n, ea) ++ b.
Proof.
  intros Hin. unfold renderSchemaAst.
  destruct (concat_In (nl ++ nl)
              (map renderEnum (enums out) ++ map renderType (types out))%list
              (renderEnum (n, ea))) as (a & b & Hab).
  { apply in_or_app. left. now apply in_map. }
  rewrite Hab.
  exists ("module default {" ++ nl ++ a), (b ++ nl ++ "}" ++ nl).
  now rewrite !sapp_assoc.
Qed.

Lemma renderSchemaAst_type_block out n ty :
  In (n, ty) (types out) ->
  exists a b, renderSchemaAst out = a ++ renderType (n, ty) ++ b.
Proof.
  intros Hin. unfold renderSchemaAst.
  destruct (concat_In (nl ++ nl)
              (map renderEnum (enums out) ++ map renderType (types out))%list
              (renderType (n, ty))) as (a & b & Hab).
  { apply in_or_app. right. now apply (in_map renderType) in Hin. }
  rewrite Hab.
  exists ("module default {" ++ nl ++ a), (b ++ nl ++ "}" ++ nl).
  now rewrite !sapp_assoc.
Qed.

Lemma typeBody_length t : length (typeBody t) = length (renderedNames t).
Proof.
  unfold typeBody, renderedNames, okeys.
  now rewrite !length_app, !length_map.
Qed.

Lemma renderedPointers_suppressed t id :
  shas id (linkIds t) = true -> ~ In id (okeys (renderedPointers t)).
Proof.
  intros Hid Hin. unfold okeys, renderedPointers in Hin.
  apply in_map_iff in Hin. destruct Hin as [[k v] [<- Hin]].
  apply filter_In in Hin. destruct Hin as [_ Hf]. simpl in Hf, Hid.
  rewrite Hid in Hf. discriminate.
Qed.

(** * The specification's properties *)

(** ** C1: a field with exactly one inverse candidate is a computed backlink *)

(** The stored expression is not the bare [.<G[is B]]. *)
Lemma backlink_expr_counterexample :
  exists mA f mB g ty b,
    oget "User" (indexModels exampleSchema) = Some mA
    /\ oget "posts" (fields mA) = Some f
    /\ fieldType (field f) = TName "Post"
    /\ oget "Post" (indexModels exampleSchema) = Some mB
    /\ linkPair mB "User" = [g]
    /\ name (field g) = "author"
    /\ translateSchema exampleSchema = Ok exampleTarget
    /\ oget "User" (types exampleTarget) = Some ty
    /\ oget "posts" (backlinks ty) = Some b
    /\ expr b = ".<author[is Post];"
    /\ expr b <> ".<author[is Post]".
Proof.
  do 6 eexists.
  repeat match goal with |- _ /\ _ => split end;
    try (vm_compute; reflexivity).
  vm_compute. discriminate.
Qed.

(** C1 (as amended).  For a link field [F] of model [A] whose declared type
    names model [B], when the filter over the fields of [B] (relation
    attribute present, declared type [A]) returns exactly one field [G], a
    successful run holds no stored pointer for [F], neither in [props] nor in
    [links] of [A], and holds [F] in [backlinks] with [multi] the list-ness of
    [F] and [expr] the text [.<G[is B];]: the reverse navigation through [G]
    filtered by [B], with its terminating semicolon.  The body of the type
    then has the backlink line of [F] and no stored-pointer line for it. *)
Theorem single_candidate_is_backlink s out A mA F f B mB g :
  translateSchema s = Ok out ->
  oget A (indexModels s) = Some mA ->
  oget F (fields mA) = Some f ->
  fieldType (field f) = TName B ->
  oget B (indexModels s) = Some mB ->
  linkPair mB A = [g] ->
  exists ty,
    oget A (types out) = Some ty
    /\ oget F (props ty) = None
    /\ oget F (links ty) = None
    /\ oget F (backlinks ty)
       = Some {| expr := ".<" ++ name (field g) ++ "[is " ++ B ++ "];";
                 bl_multi := truthy (array (field f)) |}
    /\ ~ In F (okeys (renderedPointers ty))
    /\ In ("    " ++ (if truthy (array (field f)) then "multi "
                      else EmptyString)
           ++ "link " ++ F ++ " := "
           ++ ".<" ++ name (field g) ++ "[is " ++ B ++ "];")
          (typeBody ty).
Proof.
  intros Hrun HA HF Ht HB Hpair.
  destruct (translateSchema_slot _ _ _ Hrun HA HF)
    as (ty & o & Hty & _ & Hc & Hslot).
  destruct (indexModels_oget _ _ HA) as (HnA & _ & _).
  destruct (indexModels_oget _ _ HB) as (HnB & _ & _).
  rewrite (classify_backlink (indexModels s) (translateEnums s) mA f
             Ht HB (g := g) (rest := [])) in Hc
    by (now rewrite HnA).
  simpl in Hc. injection Hc as <-. rewrite HnB in Hslot.
  unfold slot in Hslot. injection Hslot as Hp Hl Hb.
  exists ty. repeat match goal with |- _ /\ _ => split end; auto.
  - intros Hin. unfold okeys, renderedPointers in Hin.
    apply in_map_iff in Hin. destruct Hin as [[k v] [Hk Hin]].
    simpl in Hk. subst k. apply filter_In in Hin. destruct Hin as [Hin _].
    apply in_app_or in Hin.
    destruct Hin as [Hin|Hin];
      [apply oget_None in Hp | apply oget_None in Hl];
      [apply Hp | apply Hl];
      change F with (fst (F, v)); now apply in_map.
  - unfold typeBody. apply in_or_app. right.
    apply oget_In in Hb.
    exact (in_map renderBacklink _ _ Hb).
Qed.

Lemma single_candidate_is_backlink_witness :
  exists ty,
    oget "User" (types exampleTarget) = Some ty
    /\ oget "posts" (props ty) = None
    /\ oget "posts" (links ty) = None
    /\ oget "posts" (backlinks ty)
       = Some {| expr := ".<author[is Post];"; bl_multi := true |}
    /\ ~ In "posts" (okeys (renderedPointers ty))
    /\ In "    multi link posts := .<author[is Post];" (typeBody ty).
Proof.
  exact (@single_candidate_is_backlink
           exampleSchema exampleTarget
           "User" (modelAt exampleSchema "User")
           "posts" (fieldAt exampleSchema "User" "posts")
           "Post" (modelAt exampleSchema "Post")
           (fieldAt exampleSchema "Post" "author")
           eq_refl eq_refl eq_refl eq_refl eq_refl eq_refl).
Defined.

(** ** C2: a declared type that names no model *)

(** A field whose type names no indexed model ends the run with the
    unknown-type error, not with the missing-target one. *)
Lemma missing_target_counterexample :
  exists mA f,
    oget "Post" (indexModels danglingSchema) = Some mA
    /\ oget "author" (fields mA) = Some f
    /\ fieldType (field f) = TName "User"
    /\ oget "User" (indexModels danglingSchema) = None
    /\ translateSchema danglingSchema = Throw UnknownScalarTypeError
    /\ translateSchema danglingSchema <> Throw MissingRelationTargetError.
Proof.
  do 2 eexists.
  repeat match goal with |- _ /\ _ => split end; try reflexivity.
  discriminate.
Qed.

(** C2 (as amended).  No run fails with [MissingRelationTargetError]: the
    link test and the lookup of the target read the same member.  A field
    whose declared type is a name under which the model index has no member
    (no key of the index, and no name that every object inherits) is not a
    link: the loop body builds a property for it, typed by the enum of that
    name or through the scalar table, and when the name is neither a declared
    enum nor in the table the field makes the run fail with
    [UnknownScalarTypeError]. *)
Theorem missing_target_never_raised s :
  translateSchema s <> Throw MissingRelationTargetError
  /\ (forall A mA F f n,
         oget A (indexModels s) = Some mA ->
         oget F (fields mA) = Some f ->
         fieldType (field f) = TName n ->
         oget n (indexModels s) = None ->
         inherited n = false ->
         let pointer ty :=
           {| kind := property;
              multi := truthy (array (field f));
              required := if truthy (array (field f)) then false
                          else negb (truthy (optional (field f)));
              type_ := ty;
              exclusive := ohas "unique" (attrs f);
              default := getFieldDefault (translateEnums s) f |} in
         isLink (indexModels s) f = None
         /\ (ohas n (translateEnums s) = true ->
             forall t,
               translateField (indexModels s) (translateEnums s) mA t f
               = Ok (setProp t F (pointer n)))
         /\ (forall scalar,
                ohas n (translateEnums s) = false ->
                oget n typeMapping = Some scalar ->
                forall t,
                  translateField (indexModels s) (translateEnums s) mA t f
                  = Ok (setProp t F (pointer scalar)))
         /\ (ohas n (translateEnums s) = false ->
             oget n typeMapping = None ->
             failsWith s (mA, f) UnknownScalarTypeError)).
Proof.
  split.
  - intros H. apply translateSchema_error_origin in H.
    destruct H as (m & f & _ & Hc).
    exact (classify_not_missing _ _ _ _ Hc).
  - intros A mA F f n HA HF Ht Hn Hinh pointer.
    pose proof (model_field_name _ _ _ HA HF) as Hname.
    assert (Hlink : isLink (indexModels s) f = None)
      by now apply (isLink_None_name _ _ Ht).
    pose proof (classify_nonlink (indexModels s) (translateEnums s) mA f Hlink)
      as Hc.
    split; [exact Hlink | split; [|split]].
    + intros Henum t. rewrite translateField_classify, Hc.
      rewrite (edbPointer_enum _ _ Ht Henum). cbn [bind].
      now rewrite Hname.
    + intros scalar Henum Htab t. rewrite translateField_classify, Hc.
      rewrite (edbPointer_scalar _ _ Ht Henum Htab). cbn [bind].
      now rewrite Hname.
    + intros Henum Htab.
      apply failsWith_intro; [eapply workList_In; eauto|].
      rewrite fieldError_classify, Hc.
      now rewrite (edbPointer_unknown _ _ Ht Henum Htab Hinh).
Qed.

Lemma missing_target_never_raised_witness :
  translateSchema danglingSchema <> Throw MissingRelationTargetError
  /\ failsWith danglingSchema
       (modelAt danglingSchema "Post", fieldAt danglingSchema "Post" "author")
       UnknownScalarTypeError.
Proof.
  pose proof (missing_target_never_raised danglingSchema) as [H1 H2].
  split; [exact H1|].
  exact (proj2 (proj2 (proj2
                  (H2 "Post" (modelAt danglingSchema "Post")
                      "author" (fieldAt danglingSchema "Post" "author")
                      "User" eq_refl eq_refl eq_refl eq_refl eq_refl)))
               eq_refl eq_refl).
Defined.

(** ** C3: more than one inverse candidate *)

(** A link field with two inverse candidates in a run that fails with
    another error: the field before it throws first. *)
Lemma ambiguous_backlink_counterexample :
  exists mA f mB,
    oget "Team" (indexModels ambiguousAfterUnknownSchema) = Some mA
    /\ oget "members" (fields mA) = Some f
    /\ fieldType (field f) = TName "Player"
    /\ oget "Player" (indexModels ambiguousAfterUnknownSchema) = Some mB
    /\ length (linkPair mB "Team") = 2
    /\ translateSchema ambiguousAfterUnknownSchema
       = Throw UnknownScalarTypeError
    /\ translateSchema ambiguousAfterUnknownSchema
       <> Throw AmbiguousBacklinkError.
Proof.
  do 3 eexists.
  repeat match goal with |- _ /\ _ => split end; try reflexivity.
  discriminate.
Qed.

(** C3 (as amended).  For a link field [F] of model [A] pointing at model
    [B], if the filter over the fields of [B] (relation attribute present,
    declared type [A]) returns more than one field, the loop body throws
    [AmbiguousBacklinkError] on [F] and the run returns no schema; the error
    of the run is [AmbiguousBacklinkError] when no field visited before [F]
    throws. *)
Theorem ambiguous_backlink_fails s A mA F f B mB :
  oget A (indexModels s) = Some mA ->
  oget F (fields mA) = Some f ->
  fieldType (field f) = TName B ->
  oget B (indexModels s) = Some mB ->
  1 < length (linkPair mB A) ->
  failsWith s (mA, f) AmbiguousBacklinkError.
Proof.
  intros HA HF Ht HB Hlen.
  apply failsWith_intro; [eapply workList_In; eauto|].
  rewrite fieldError_classify.
  destruct (indexModels_oget _ _ HA) as (HnA & _ & _).
  destruct (linkPair mB A) as [|g rest] eqn:Hp; [simpl in Hlen; lia|].
  rewrite (classify_backlink (indexModels s) (translateEnums s) mA f
             Ht HB (g := g) (rest := rest)) by (now rewrite HnA).
  apply Nat.ltb_lt in Hlen. now rewrite Hlen.
Qed.

Lemma ambiguous_backlink_fails_witness :
  translateSchema ambiguousSchema = Throw AmbiguousBacklinkError.
Proof.
  refine (proj2 (proj2 (@ambiguous_backlink_fails
                          ambiguousSchema
                          "Team" (modelAt ambiguousSchema "Team")
                          "members" (fieldAt ambiguousSchema "Team" "members")
                          "Player" (modelAt ambiguousSchema "Player")
                          eq_refl eq_refl eq_refl eq_refl _))
                [(modelAt ambiguousSchema "Team",
                  fieldAt ambiguousSchema "Team" "id")]
                (map (pair (modelAt ambiguousSchema "Player"))
                     (ovalues (fields (modelAt ambiguousSchema "Player"))))
                eq_refl _).
  - simpl. lia.
  - intros y [<-|[]]. reflexivity.
Defined.

(** ** C4: a list pointer is [multi] and never [required] *)

(** C4.  In a successful run, the pointer stored for a field, in [props] or
    in [links], is [multi] and not [required] when the field is declared as a
    list, whatever its declared optionality; for a field that is not a list
    the pointer is not [multi] and [required] is the negation of the declared
    optionality. *)
Theorem list_pointer_is_multi_not_required s out A mA F f ty p :
  translateSchema s = Ok out ->
  oget A (indexModels s) = Some mA ->
  oget F (fields mA) = Some f ->
  oget A (types out) = Some ty ->
  oget F (props ty) = Some p \/ oget F (links ty) = Some p ->
  (truthy (array (field f)) = true -> multi p = true /\ required p = false)
  /\ (truthy (array (field f)) = false ->
      multi p = false
      /\ required p = negb (truthy (optional (field f)))).
Proof.
  intros Hrun HA HF Hty Hp.
  destruct (translateSchema_slot _ _ _ Hrun HA HF)
    as (ty' & o & Hty' & _ & Hc & Hslot).
  rewrite Hty in Hty'. injection Hty' as <-.
  unfold slot in Hslot.
  assert (Hptr : exists asLink,
             edbPointer (translateEnums s) asLink f = Ok p).
  { destruct o as [b|id q|q]; injection Hslot as Hp' Hl' Hb'.
    - destruct Hp as [Hp|Hp]; congruence.
    - apply classify_link_inv in Hc.
      destruct Hc as (n & target & _ & _ & _ & _ & Hq).
      exists true. destruct Hp as [Hp|Hp]; congruence.
    - apply classify_prop_inv in Hc. destruct Hc as [_ Hq].
      exists false. destruct Hp as [Hp|Hp]; congruence. }
  destruct Hptr as [asLink Hq].
  apply edbPointer_ok in Hq. destruct Hq as (_ & Hm & Hr & _ & _).
  rewrite Hm, Hr. split; intros ->; auto.
Qed.

Lemma list_pointer_is_multi_not_required_witness :
  oget "categories"
       (links (match oget "Post" (types exampleTarget) with
               | Some t => t
               | None => emptyType
               end)) = Some categoriesPointer
  /\ multi categoriesPointer = true
  /\ required categoriesPointer = false.
Proof.
  split; [reflexivity|].
  exact (proj1 (@list_pointer_is_multi_not_required
                  exampleSchema exampleTarget
                  "Post" (modelAt exampleSchema "Post")
                  "categories" (fieldAt exampleSchema "Post" "categories")
                  (match oget "Post" (types exampleTarget) with
                   | Some t => t
                   | None => emptyType
                   end)
                  categoriesPointer
                  eq_refl eq_refl eq_refl eq_refl (or_intror eq_refl))
               eq_refl).
Defined.

(** ** C5: the id field named by a relation attribute *)

(** The named field is recorded in [linkIds] and still rendered: the filter
    covers [props] and [links], not [backlinks].  And an owning-side link
    with two id names in a run that fails with another error: the field
    before it throws first. *)
Lemma link_id_rendered_counterexample :
  (exists mA f mB out ty,
      oget "Post" (indexModels backlinkAsIdSchema) = Some mA
      /\ oget "author" (fields mA) = Some f
      /\ fieldType (field f) = TName "User"
      /\ oget "User" (indexModels backlinkAsIdSchema) = Some mB
      /\ linkPair mB "Post" = []
      /\ idFields f
         = Some {| key := "fields"; value := VRelArray ["comments"] |}
      /\ translateSchema backlinkAsIdSchema = Ok out
      /\ oget "Post" (types out) = Some ty
      /\ shas "comments" (linkIds ty) = true
      /\ renderedNames ty = ["id"; "author"; "comments"]
      /\ typeBody ty
         = [ "    required property id -> int32;";
             "    required link author -> User;";
             "    multi link comments := .<post[is Comment];" ])
  /\ (exists mA f mB,
         oget "Post" (indexModels compositeAfterUnknownSchema) = Some mA
         /\ oget "author" (fields mA) = Some f
         /\ fieldType (field f) = TName "User"
         /\ oget "User" (indexModels compositeAfterUnknownSchema) = Some mB
         /\ linkPair mB "Post" = []
         /\ idFields f
            = Some {| key := "fields";
                      value := VRelArray ["authorFirst"; "authorLast"] |}
         /\ translateSchema compositeAfterUnknownSchema
            = Throw UnknownScalarTypeError
         /\ translateSchema compositeAfterUnknownSchema
            <> Throw UnsupportedCompositeKeyError).
Proof.
  split.
  - do 5 eexists.
    repeat match goal with |- _ /\ _ => split end; reflexivity.
  - do 3 eexists.
    repeat match goal with |- _ /\ _ => split end; try reflexivity.
    discriminate.
Qed.

(** C5 (as amended).  For an owning-side link field (its type names an
    indexed model that has no inverse candidate) whose relation attribute
    lists id field names under [fields]: when exactly one name is listed, a
    successful run holds it in the [linkIds] of the owning type, and the body
    that [renderSchemaAst] writes for the type is made of the lines of the
    entries of [props] and [links] whose name is not in [linkIds], none of
    which bears the listed name, followed by the lines of the backlinks: the
    listed name is rendered as no property and no link, and heads a line of
    the body only when a backlink of the type bears it; when more than one
    name is listed, the loop body throws [UnsupportedCompositeKeyError] on
    the field and the run returns no schema, its error being that one when no
    field visited before throws. *)
Theorem relation_id_field_suppressed s A mA F f B mB kv ids :
  oget A (indexModels s) = Some mA ->
  oget F (fields mA) = Some f ->
  fieldType (field f) = TName B ->
  oget B (indexModels s) = Some mB ->
  linkPair mB A = [] ->
  idFields f = Some kv ->
  value kv = VRelArray ids ->
  (forall id out,
      ids = [id] ->
      translateSchema s = Ok out ->
      exists ty es,
        oget A (types out) = Some ty
        /\ shas id (linkIds ty) = true
        /\ (forall k p,
               In (k, p) es <->
               In (k, p) (props ty ++ links ty)%list
               /\ shas k (linkIds ty) = false)
        /\ ~ In id (okeys es)
        /\ typeBody ty
           = (map renderPointer es ++ map renderBacklink (backlinks ty))%list
        /\ exists a b,
             renderSchemaAst out
             = a ++ ("  type " ++ A ++ " {" ++ nl
                     ++ String.concat nl
                          (map renderPointer es
                           ++ map renderBacklink (backlinks ty))%list
                     ++ nl ++ "  }") ++ b)
  /\ (1 < length ids -> failsWith s (mA, f) UnsupportedCompositeKeyError).
Proof.
  intros HA HF Ht HB Hpair Hkv Hids.
  destruct (indexModels_oget _ _ HA) as (HnA & _ & _).
  pose proof (classify_owning (indexModels s) (translateEnums s) mA f Ht HB)
    as Hc.
  rewrite HnA in Hc. specialize (Hc Hpair).
  rewrite (edbPointer_link (translateEnums s) f Ht) in Hc.
  split.
  - intros id out -> Hrun.
    assert (Hid : linkIdOf f = Ok (Some id))
      by (apply linkIdOf_Some; eauto).
    rewrite Hid in Hc. cbn [bind] in Hc.
    destruct (translateSchema_type _ _ Hrun HA) as (ty & Hty & Hfields).
    assert (Hrec : shas id (linkIds ty) = true).
    { unfold translateFields in Hfields.
      eapply fields_linkIds_recorded;
        [exact Hfields | eapply oget_ovalues; exact HF | exact Hc]. }
    exists ty, (renderedPointers ty).
    split; [exact Hty|]. split; [exact Hrec|]. split; [|split; [|split]].
    + intros k p. unfold renderedPointers. rewrite filter_In. simpl.
      now rewrite negb_true_iff.
    + exact (renderedPointers_suppressed ty id Hrec).
    + reflexivity.
    + exact (renderSchemaAst_type_block out A ty (oget_In _ _ Hty)).
  - intros Hlen. apply failsWith_intro; [eapply workList_In; eauto|].
    rewrite fieldError_classify, Hc. unfold linkIdOf. rewrite Hkv, Hids.
    destruct ids as [|a [|b l]]; simpl in Hlen; try lia. reflexivity.
Qed.

Lemma relation_id_field_suppressed_witness :
  (exists ty es,
      oget "Post" (types exampleTarget) = Some ty
      /\ shas "authorId" (linkIds ty) = true
      /\ (forall k p,
             In (k, p) es <->
             In (k, p) (props ty ++ links ty)%list
             /\ shas k (linkIds ty) = false)
      /\ ~ In "authorId" (okeys es)
      /\ typeBody ty
         = (map renderPointer es ++ map renderBacklink (backlinks ty))%list
      /\ exists a b,
           renderSchemaAst exampleTarget
           = a ++ ("  type " ++ "Post" ++ " {" ++ nl
                   ++ String.concat nl
                        (map renderPointer es
                         ++ map renderBacklink (backlinks ty))%list
                   ++ nl ++ "  }") ++ b)
  /\ ohas "authorId" (props (typeAt exampleTarget "Post")) = true
  /\ okeys (renderedPointers (typeAt exampleTarget "Post"))
     = ["id"; "createdAt"; "title"; "published"; "author"; "categories"]
  /\ length (typeBody (typeAt exampleTarget "Post")) = 6
  /\ translateSchema compositeKeySchema = Throw UnsupportedCompositeKeyError.
Proof.
  refine (conj _ (conj eq_refl (conj eq_refl (conj eq_refl _)))).
  - exact (proj1 (@relation_id_field_suppressed
                    exampleSchema
                    "Post" (modelAt exampleSchema "Post")
                    "author" (fieldAt exampleSchema "Post" "author")
                    "User" (modelAt exampleSchema "User")
                    {| key := "fields"; value := VRelArray ["authorId"] |}
                    ["authorId"]
                    eq_refl eq_refl eq_refl eq_refl eq_refl eq_refl eq_refl)
                 "authorId" exampleTarget eq_refl eq_refl).
  - refine (proj2 (proj2 (proj2 (@relation_id_field_suppressed
                    compositeKeySchema
                    "Post" (modelAt compositeKeySchema "Post")
                    "author" (fieldAt compositeKeySchema "Post" "author")
                    "User" (modelAt compositeKeySchema "User")
                    {| key := "fields";
                       value := VRelArray ["authorFirst"; "authorLast"] |}
                    ["authorFirst"; "authorLast"]
                    eq_refl eq_refl eq_refl eq_refl eq_refl eq_refl eq_refl)
                    _))
                [(modelAt compositeKeySchema "Post",
                  fieldAt compositeKeySchema "Post" "id")]
                (map (pair (modelAt compositeKeySchema "Post"))
                     [fieldAt compositeKeySchema "Post" "authorFirst";
                      fieldAt compositeKeySchema "Post" "authorLast"]
                 ++ map (pair (modelAt compositeKeySchema "User"))
                        (ovalues (fields (modelAt compositeKeySchema "User"))))%list
                eq_refl _).
    + simpl. lia.
    + intros y [<-|[]]. reflexivity.
Defined.

(** ** C6: the default-value translator *)

(** C6.  With [d] the first argument of the field's [default] attribute:
    a string [v] on a field whose type is a declared enum [n] gives [n.v];
    a string on a field of type [String] (not redeclared as an enum) gives
    the string as a quoted literal, [JSON.stringify v]: [v] between double
    quotes with its quotes, backslashes and control characters escaped, so
    that the literal reads back as [v] and is [v] itself between quotes when
    [v] has no such character; a string on a field of type [Boolean] (not
    redeclared as an enum) gives [v] itself; a call of [now] gives
    [datetime_current()] and a call of [uuid] gives [uuid_generate_v4()];
    every other case gives [null]: no [default] attribute or no first
    argument, a call of another function, a string on a field of any other
    type, and any other kind of value.  The function is total: it raises
    nothing. *)
Theorem getFieldDefault_cases enums f :
  (forall d v n,
      defaultArg f = Some d -> arg_value d = AValue (VString v) ->
      fieldType (field f) = TName n -> ohas n enums = true ->
      getFieldDefault enums f = Some (n ++ "." ++ v))
  /\ (forall d v,
         defaultArg f = Some d -> arg_value d = AValue (VString v) ->
         fieldType (field f) = TName "String" -> ohas "String" enums = false ->
         getFieldDefault enums f
         = Some (chr 34 ++ jsonEscapeAll v ++ chr 34)
         /\ readLiteral (chr 34 ++ jsonEscapeAll v ++ chr 34) = Some v
         /\ (plain v = true ->
             getFieldDefault enums f = Some (chr 34 ++ v ++ chr 34)))
  /\ (forall d v,
         defaultArg f = Some d -> arg_value d = AValue (VString v) ->
         fieldType (field f) = TName "Boolean" ->
         ohas "Boolean" enums = false ->
         getFieldDefault enums f = Some v)
  /\ (forall d ps,
         defaultArg f = Some d -> arg_value d = AValue (VFunc "now" ps) ->
         getFieldDefault enums f = Some "datetime_current()")
  /\ (forall d ps,
         defaultArg f = Some d -> arg_value d = AValue (VFunc "uuid" ps) ->
         getFieldDefault enums f = Some "uuid_generate_v4()")
  /\ (defaultArg f = None -> getFieldDefault enums f = None)
  /\ (forall d fn ps,
         defaultArg f = Some d -> arg_value d = AValue (VFunc fn ps) ->
         fn <> "now" -> fn <> "uuid" ->
         getFieldDefault enums f = None)
  /\ (forall d v n,
         defaultArg f = Some d -> arg_value d = AValue (VString v) ->
         fieldType (field f) = TName n -> ohas n enums = false ->
         n <> "String" -> n <> "Boolean" ->
         getFieldDefault enums f = None)
  /\ (forall d v fn ps,
         defaultArg f = Some d -> arg_value d = AValue (VString v) ->
         fieldType (field f) = TFunc fn ps ->
         getFieldDefault enums f = None)
  /\ (forall d,
         defaultArg f = Some d ->
         (forall v, arg_value d <> AValue (VString v)) ->
         (forall fn ps, arg_value d <> AValue (VFunc fn ps)) ->
         getFieldDefault enums f = None).
Proof.
  unfold getFieldDefault.
  repeat match goal with |- _ /\ _ => split end.
  - intros d v n -> -> -> ->. reflexivity.
  - intros d v -> -> -> ->.
    change (Some (JSON_stringify v) = Some (JSON_stringify v)
            /\ readLiteral (JSON_stringify v) = Some v
            /\ (plain v = true ->
                Some (JSON_stringify v) = Some (chr 34 ++ v ++ chr 34))).
    split; [reflexivity | split; [exact (readLiteral_stringify v)|]].
    intros Hplain. unfold JSON_stringify.
    now rewrite (jsonEscapeAll_plain v Hplain).
  - intros d v -> -> -> ->. reflexivity.
  - intros d ps -> ->. reflexivity.
  - intros d ps -> ->. reflexivity.
  - intros ->. reflexivity.
  - intros d fn ps -> -> Hnow Huuid.
    apply String.eqb_neq in Hnow, Huuid. now rewrite Hnow, Huuid.
  - intros d v n -> -> -> -> Hs Hb.
    apply String.eqb_neq in Hs, Hb. now rewrite Hs, Hb.
  - intros d v fn ps -> -> ->. reflexivity.
  - intros d -> Hs Hf.
    destruct (arg_value d) as [kv|[v|n|b|fn ps|args|items]];
      try reflexivity.
    + now destruct (Hs v).
    + now destruct (Hf fn ps).
Qed.

Lemma getFieldDefault_cases_witness :
  getFieldDefault (translateEnums exampleSchema)
                  (fieldAt exampleSchema "User" "role") = Some "Role.USER"
  /\ getFieldDefault (translateEnums stringDefaultSchema)
                     (fieldAt stringDefaultSchema "Article" "status")
     = Some (chr 34 ++ "draft" ++ chr 34)
  /\ getFieldDefault (translateEnums stringDefaultSchema)
                     (fieldAt stringDefaultSchema "Article" "title")
     = Some (chr 34 ++ chr 92 ++ chr 34 ++ "No title" ++ chr 92 ++ chr 34
             ++ chr 34)
  /\ getFieldDefault (translateEnums exampleSchema)
                     (fieldAt exampleSchema "Post" "createdAt")
     = Some "datetime_current()"
  /\ getFieldDefault (translateEnums exampleSchema)
                     (fieldAt exampleSchema "Post" "published") = Some "false"
  /\ getFieldDefault (translateEnums exampleSchema)
                     (fieldAt exampleSchema "Post" "id") = None.
Proof.
  pose proof (getFieldDefault_cases (translateEnums exampleSchema)
                (fieldAt exampleSchema "User" "role")) as (H1 & _).
  pose proof (getFieldDefault_cases (translateEnums stringDefaultSchema)
                (fieldAt stringDefaultSchema "Article" "status"))
    as (_ & H2 & _).
  pose proof (getFieldDefault_cases (translateEnums stringDefaultSchema)
                (fieldAt stringDefaultSchema "Article" "title"))
    as (_ & H2' & _).
  pose proof (getFieldDefault_cases (translateEnums exampleSchema)
                (fieldAt exampleSchema "Post" "createdAt"))
    as (_ & _ & _ & H4 & _).
  pose proof (getFieldDefault_cases (translateEnums exampleSchema)
                (fieldAt exampleSchema "Post" "published"))
    as (_ & _ & H3 & _).
  pose proof (getFieldDefault_cases (translateEnums exampleSchema)
                (fieldAt exampleSchema "Post" "id"))
    as (_ & _ & _ & _ & _ & _ & H7 & _).
  refine (conj _ (conj _ (conj _ (conj _ (conj _ _))))).
  - exact (H1 (argOf (AValue (VString "USER"))) "USER" "Role"
              eq_refl eq_refl eq_refl eq_refl).
  - exact (proj2 (proj2 (H2 (argOf (AValue (VString "draft"))) "draft"
                            eq_refl eq_refl eq_refl eq_refl))
                 eq_refl).
  - exact (proj1 (H2' (argOf (AValue (VString
                                        (chr 34 ++ "No title" ++ chr 34))))
                      (chr 34 ++ "No title" ++ chr 34)
                      eq_refl eq_refl eq_refl eq_refl)).
  - exact (H4 (argOf (AValue (VFunc "now" None))) None eq_refl eq_refl).
  - exact (H3 (argOf (AValue (VString "false"))) "false"
              eq_refl eq_refl eq_refl eq_refl).
  - apply (H7 (argOf (AValue (VFunc "autoincrement" None))) "autoincrement"
              None eq_refl eq_refl); discriminate.
Defined.

(** ** C7: scalar types *)

(** A non-link field whose type name the table lacks and whose run
    succeeds: the name is a declared enum, and the table is not consulted.
    And a non-link field whose type name is neither in the table nor an enum,
    in a run that fails with another error: the field before it throws
    first. *)
Lemma scalar_type_counterexample :
  (exists mA f ty p,
      oget "User" (indexModels exampleSchema) = Some mA
      /\ oget "role" (fields mA) = Some f
      /\ isLink (indexModels exampleSchema) f = None
      /\ fieldType (field f) = TName "Role"
      /\ oget "Role" typeMapping = None
      /\ translateSchema exampleSchema = Ok exampleTarget
      /\ oget "User" (types exampleTarget) = Some ty
      /\ oget "role" (props ty) = Some p
      /\ type_ p = "Role")
  /\ (exists mA f,
         oget "Place" (indexModels unknownAfterFunctionSchema) = Some mA
         /\ oget "location" (fields mA) = Some f
         /\ isLink (indexModels unknownAfterFunctionSchema) f = None
         /\ fieldType (field f) = TName "Point"
         /\ ohas "Point" (translateEnums unknownAfterFunctionSchema) = false
         /\ oget "Point" typeMapping = None
         /\ translateSchema unknownAfterFunctionSchema
            = Throw FunctionTypeUnsupportedError
         /\ translateSchema unknownAfterFunctionSchema
            <> Throw UnknownScalarTypeError).
Proof.
  split.
  - do 4 eexists.
    repeat match goal with |- _ /\ _ => split end; reflexivity.
  - do 2 eexists.
    repeat match goal with |- _ /\ _ => split end; try reflexivity.
    discriminate.
Qed.

(** C7 (as amended).  [mapPrismaTypeToEdgeDBScalar] returns the table's
    scalar for a name in the table, throws [UnknownScalarTypeError] for a
    name that is neither in the table nor one that every object inherits, and
    throws [FunctionTypeUnsupportedError] for a function type that carries
    its parameter list.  For a field that is not a link (the model index has
    no member under its declared type) and whose type is not a declared enum:
    with a name in the table, the loop body writes a property of the table's
    scalar type and a successful run holds it; with a name absent from the
    table the loop body throws [UnknownScalarTypeError], with a function type
    that carries its parameter list it throws [FunctionTypeUnsupportedError],
    and in both cases the run returns no schema and its error is that one
    when no field visited before throws. *)
Theorem scalar_type_resolution s A mA F f :
  oget A (indexModels s) = Some mA ->
  oget F (fields mA) = Some f ->
  isLink (indexModels s) f = None ->
  (forall n scalar,
      oget n typeMapping = Some scalar ->
      mapPrismaTypeToEdgeDBScalar (TName n) = Ok (Own scalar))
  /\ (forall n,
         oget n typeMapping = None ->
         inherited n = false ->
         mapPrismaTypeToEdgeDBScalar (TName n) = Throw UnknownScalarTypeError)
  /\ (forall fn ps,
         mapPrismaTypeToEdgeDBScalar (TFunc fn (Some ps))
         = Throw FunctionTypeUnsupportedError)
  /\ (forall n scalar,
         fieldType (field f) = TName n ->
         ohas n (translateEnums s) = false ->
         oget n typeMapping = Some scalar ->
         (forall t, exists p,
             translateField (indexModels s) (translateEnums s) mA t f
             = Ok (setProp t F p)
             /\ kind p = property /\ type_ p = scalar)
         /\ (forall out,
                translateSchema s = Ok out ->
                exists ty p,
                  oget A (types out) = Some ty
                  /\ oget F (props ty) = Some p
                  /\ kind p = property /\ type_ p = scalar))
  /\ (forall n,
         fieldType (field f) = TName n ->
         ohas n (translateEnums s) = false ->
         oget n typeMapping = None ->
         failsWith s (mA, f) UnknownScalarTypeError)
  /\ (forall fn ps,
         fieldType (field f) = TFunc fn (Some ps) ->
         failsWith s (mA, f) FunctionTypeUnsupportedError).
Proof.
  intros HA HF Hlink.
  pose proof (model_field_name _ _ _ HA HF) as Hname.
  pose proof (workList_In _ _ _ HA HF) as Hin.
  pose proof (classify_nonlink (indexModels s) (translateEnums s) mA f Hlink)
    as Hc.
  repeat match goal with |- _ /\ _ => split end.
  - intros n scalar H. unfold mapPrismaTypeToEdgeDBScalar.
    now rewrite (member_Own _ _ H).
  - intros n H Hi. unfold mapPrismaTypeToEdgeDBScalar, member.
    now rewrite H, Hi.
  - reflexivity.
  - intros n scalar Ht Henum Htab.
    rewrite (edbPointer_scalar _ _ Ht Henum Htab) in Hc. cbn [bind] in Hc.
    split.
    + intros t. eexists. rewrite translateField_classify, Hc. cbn [bind].
      rewrite Hname. split; [reflexivity | split; reflexivity].
    + intros out Hrun.
      destruct (translateSchema_slot _ _ _ Hrun HA HF)
        as (ty & o & Hget & _ & Hc' & Hslot).
      rewrite Hc in Hc'. injection Hc' as <-.
      unfold slot in Hslot. injection Hslot as Hp' _ _.
      exists ty. eexists. split; [exact Hget|].
      split; [exact Hp' | split; reflexivity].
  - intros n Ht Henum Htab. apply failsWith_intro; auto.
    rewrite fieldError_classify, Hc.
    apply (isLink_None_name _ _ Ht) in Hlink. destruct Hlink as [_ Hi].
    now rewrite (edbPointer_unknown _ _ Ht Henum Htab Hi).
  - intros fn ps Ht. apply failsWith_intro; auto.
    rewrite fieldError_classify, Hc.
    now rewrite (edbPointer_function _ false _ Ht).
Qed.

Lemma scalar_type_resolution_witness :
  translateSchema unknownScalarSchema = Throw UnknownScalarTypeError
  /\ translateSchema functionTypeSchema = Throw FunctionTypeUnsupportedError
  /\ exists ty p,
       oget "Post" (types exampleTarget) = Some ty
       /\ oget "createdAt" (props ty) = Some p
       /\ kind p = property /\ type_ p = "datetime".
Proof.
  pose proof (@scalar_type_resolution
                unknownScalarSchema
                "Place" (modelAt unknownScalarSchema "Place")
                "location" (fieldAt unknownScalarSchema "Place" "location")
                eq_refl eq_refl eq_refl)
    as (_ & _ & _ & _ & Hunknown & _).
  pose proof (@scalar_type_resolution
                functionTypeSchema
                "Place" (modelAt functionTypeSchema "Place")
                "area" (fieldAt functionTypeSchema "Place" "area")
                eq_refl eq_refl eq_refl)
    as (_ & _ & _ & _ & _ & Hfunc).
  pose proof (@scalar_type_resolution
                exampleSchema
                "Post" (modelAt exampleSchema "Post")
                "createdAt" (fieldAt exampleSchema "Post" "createdAt")
                eq_refl eq_refl eq_refl)
    as (_ & _ & _ & Hknown & _).
  refine (conj _ (conj _ _)).
  - exact (proj2 (proj2 (Hunknown "Point" eq_refl eq_refl eq_refl))
                 [] [] eq_refl (fun y (H : In y []) => match H with end)).
  - exact (proj2 (proj2 (Hfunc "Unsupported" [VString "circle"] eq_refl))
                 [] [] eq_refl (fun y (H : In y []) => match H with end)).
  - exact (proj2 (Hknown "DateTime" "datetime" eq_refl eq_refl eq_refl)
                 exampleTarget eq_refl).
Defined.

(** ** C8: what [linkIds] holds *)

(** A successful run whose [linkIds] holds a name that is no key of [props]:
    the relation attribute names an id field the model does not declare. *)
Lemma linkIds_subset_counterexample :
  exists out ty,
    translateSchema orphanIdSchema = Ok out
    /\ oget "Post" (types out) = Some ty
    /\ shas "authorId" (linkIds ty) = true
    /\ ohas "authorId" (props ty) = false
    /\ okeys (props ty) = ["id"].
Proof.
  do 2 eexists.
  repeat match goal with |- _ /\ _ => split end; reflexivity.
Qed.

(** C8 (as amended).  In every object type of a successful run, every name
    in [linkIds] is the single id-field name that the relation attribute of
    one of the model's owning-side link fields lists under [fields].  The
    name is not checked against the model: it is a key of [props] exactly
    when the model has a field of that name that is not a link. *)
Theorem linkIds_are_relation_id_names s out A ty n :
  translateSchema s = Ok out ->
  oget A (types out) = Some ty ->
  shas n (linkIds ty) = true ->
  exists mA f B mB kv,
    oget A (indexModels s) = Some mA
    /\ In f (ovalues (fields mA))
    /\ fieldType (field f) = TName B
    /\ oget B (indexModels s) = Some mB
    /\ linkPair mB A = []
    /\ idFields f = Some kv
    /\ value kv = VRelArray [n]
    /\ (ohas n (props ty) = true <->
        exists g, oget n (fields mA) = Some g
                  /\ isLink (indexModels s) g = None).
Proof.
  intros Hrun Hty Hn.
  destruct (translateSchema_type_origin _ _ Hrun Hty) as (mA & HA & Hfields).
  destruct (indexModels_oget _ _ HA) as (HnA & _ & _).
  pose proof Hfields as Hloop. unfold translateFields in Hloop.
  destruct (fields_linkIds_origin _ _ _ _ _ n Hloop Hn)
    as [Habs|(f & p & Hf & Hc)]; [discriminate|].
  apply classify_link_inv in Hc.
  destruct Hc as (B & mB & Ht & HB & Hpair & Hid & _).
  rewrite HnA in Hpair. apply linkIdOf_Some in Hid.
  destruct Hid as (kv & Hkv & Hval).
  exists mA, f, B, mB, kv. repeat match goal with |- _ /\ _ => split end; auto.
  split.
  - intros Hprop. apply ohas_true in Hprop. destruct Hprop as [q Hq].
    destruct (oget n (fields mA)) as [g|] eqn:Hg.
    + exists g. split; auto.
      destruct (translateSchema_slot _ _ _ Hrun HA Hg)
        as (ty' & o & Hty' & _ & Hc & Hslot).
      rewrite Hty in Hty'. injection Hty' as <-.
      unfold slot in Hslot. rewrite Hq in Hslot.
      destruct o as [b|id r|r]; try discriminate Hslot.
      now apply classify_prop_inv in Hc.
    + pose proof (translateFields_absent s mA n
                    (oget_ovalues _ _ HA) Hfields Hg) as Hslot.
      unfold slot in Hslot. congruence.
  - intros (g & Hg & Hlink).
    destruct (translateSchema_slot _ _ _ Hrun HA Hg)
      as (ty' & o & Hty' & _ & Hc & Hslot).
    rewrite Hty in Hty'. injection Hty' as <-.
    rewrite classify_nonlink in Hc by assumption.
    destruct (edbPointer (translateEnums s) false g) as [r|];
      cbn [bind] in Hc; [|discriminate Hc].
    injection Hc as <-. unfold slot in Hslot. injection Hslot as Hp _ _.
    apply ohas_true. eauto.
Qed.

Lemma linkIds_are_relation_id_names_witness :
  exists mA f B mB kv,
    oget "Profile" (indexModels exampleSchema) = Some mA
    /\ In f (ovalues (fields mA))
    /\ fieldType (field f) = TName B
    /\ oget B (indexModels exampleSchema) = Some mB
    /\ linkPair mB "Profile" = []
    /\ idFields f = Some kv
    /\ value kv = VRelArray ["userId"]
    /\ (ohas "userId"
             (props (match oget "Profile" (types exampleTarget) with
                     | Some t => t
                     | None => emptyType
                     end)) = true <->
        exists g, oget "userId" (fields mA) = Some g
                  /\ isLink (indexModels exampleSchema) g = None).
Proof.
  exact (@linkIds_are_relation_id_names
           exampleSchema exampleTarget "Profile"
           (match oget "Profile" (types exampleTarget) with
            | Some t => t
            | None => emptyType
            end)
           "userId" eq_refl eq_refl eq_refl).
Defined.

(** ** C9: enum values are rendered in declared order *)

(** An enum declaration whose value names do not reach the output: a later
    declaration of the same name has replaced them. *)
Lemma enum_order_counterexample :
  exists out,
    In (BEnum {| enum_name := "Role";
                 enumerators := [IEnumerator "USER"; IEnumerator "ADMIN"] |})
       (list_ redeclaredEnumSchema)
    /\ translateSchema redeclaredEnumSchema = Ok out
    /\ map renderEnum (enums out)
       = ["  scalar type Role extending enum<GUEST>;"]
    /\ renderSchemaAst out
       = "module default {" ++ nl
         ++ "  scalar type Role extending enum<GUEST>;" ++ nl
         ++ "}" ++ nl.
Proof.
  eexists.
  repeat match goal with |- _ /\ _ => split end;
    try reflexivity.
  simpl. auto.
Qed.

(** C9 (as amended).  For every enum declaration of the source schema that
    no later enum declaration of the same name replaces, a successful run
    followed by the renderer writes the line
    [scalar type N extending enum<v1, ..., vk>;] where [v1 ... vk] are the
    names of the declaration's enumerators in their declared order. *)
Theorem enum_values_in_declared_order s out pre e post :
  list_ s = (pre ++ BEnum e :: post)%list ->
  (forall e', In (BEnum e') post -> enum_name e' <> enum_name e) ->
  translateSchema s = Ok out ->
  oget (enum_name e) (enums out) = Some {| values := enumeratorNames e |}
  /\ exists a b,
       renderSchemaAst out
       = a ++ ("  scalar type " ++ enum_name e ++ " extending enum<"
               ++ String.concat ", " (enumeratorNames e) ++ ">;") ++ b.
Proof.
  intros Hlist Hlast Hrun.
  apply translateSchema_ok in Hrun. destruct Hrun as [Henums _].
  assert (Hget : oget (enum_name e) (enums out)
                 = Some {| values := enumeratorNames e |}).
  { rewrite Henums. unfold translateEnums. rewrite Hlist.
    apply indexBy_last; [reflexivity|].
    intros b v Hb Hentry. destruct b as [m|e'|]; try discriminate.
    simpl in Hentry. injection Hentry as Hn _.
    exact (Hlast e' Hb Hn). }
  split; [exact Hget|].
  apply oget_In in Hget.
  exact (renderSchemaAst_enum_line out _ _ Hget).
Qed.

Lemma enum_values_in_declared_order_witness :
  oget "Role" (enums exampleTarget) = Some {| values := ["USER"; "ADMIN"] |}
  /\ exists a b,
       renderSchemaAst exampleTarget
       = a ++ "  scalar type Role extending enum<USER, ADMIN>;" ++ b.
Proof.
  refine (@enum_values_in_declared_order
            exampleSchema exampleTarget
            (firstn 5 (list_ exampleSchema))
            {| enum_name := "Role";
               enumerators := [IEnumerator "USER"; IOther; IEnumerator "ADMIN"] |}
            [] eq_refl _ eq_refl).
  intros e' [].
Defined.

(** ** C10: a field of enum type is a property typed by the enum *)

(** C10.  A field of enum type is not written as a property when the name
    of the enum is one that every object inherits.  In [inheritedEnumSchema]
    the field [format] has the type [toString], a declared enum and no
    declared model; the link test reads [models["toString"]], finds the
    inherited function, and the loop body takes the link branch, where
    [Object.values(target.fields)] throws: no property is written and the run
    ends with the runtime's type error. *)
Theorem inherited_enum_name_is_taken_for_a_link :
  exists mA f e,
    oget "Report" (indexModels inheritedEnumSchema) = Some mA
    /\ oget "format" (fields mA) = Some f
    /\ In (BEnum e) (list_ inheritedEnumSchema)
    /\ fieldType (field f) = TName (enum_name e)
    /\ (forall m, In (BModel m) (list_ inheritedEnumSchema) ->
                  model_name m <> enum_name e)
    /\ isLink (indexModels inheritedEnumSchema) f = Some "toString"
    /\ (forall t,
           translateField (indexModels inheritedEnumSchema)
                          (translateEnums inheritedEnumSchema) mA t f
           = Throw RuntimeTypeError)
    /\ translateSchema inheritedEnumSchema = Throw RuntimeTypeError.
Proof.
  exists (modelAt inheritedEnumSchema "Report"),
         (fieldAt inheritedEnumSchema "Report" "format"),
         {| enum_name := "toString";
            enumerators := [IEnumerator "SHORT"; IEnumerator "LONG"] |}.
  repeat match goal with |- _ /\ _ => split end; try reflexivity.
  - simpl. auto.
  - intros m [H|[H|[]]]; [discriminate H|].
    injection H as <-. discriminate.
Qed.

(** * Further properties of the translator *)

(** ** Success and failure of a run *)

(** X1.  A run returns a schema exactly when the loop body throws on no field
    that the two nested loops visit. *)
Theorem translateSchema_succeeds_iff s :
  (exists out, translateSchema s = Ok out) <->
  (forall x, In x (workList s) -> fieldError s x = None).
Proof.
  pose proof (translateSchema_run s) as Hrun. split.
  - intros [out Hout] [m f] Hin. rewrite fieldError_classify.
    destruct (classify _ _ m f) as [o|e] eqn:Hc; [reflexivity|].
    exfalso.
    destruct (translateSchema_some_error s (m, f) (e := e) Hin) as [e' He'].
    + rewrite fieldError_classify, Hc. reflexivity.
    + congruence.
  - intros Hall. destruct (firstError _) as [e|] eqn:E; [|exact Hrun].
    exfalso. apply firstError_In, in_map_iff in E.
    destruct E as [[m f] [Hc Hin]]. specialize (Hall _ Hin).
    rewrite fieldError_classify in Hall. simpl in Hc.
    rewrite Hc in Hall. discriminate.
Qed.

Lemma translateSchema_succeeds_iff_witness :
  exists out, translateSchema fieldlessSchema = Ok out.
Proof.
  apply (proj2 (translateSchema_succeeds_iff fieldlessSchema)).
  intros x Hin. vm_compute in Hin.
  destruct Hin as [<-|[]]. reflexivity.
Defined.

(** ** The object types of a result *)

Lemma oset_fresh (V : Type) (k : string) (v : V) (m : omap V) :
  ohas k m = false -> oset k v m = (m ++ [(k, v)])%list.
Proof.
  unfold ohas. induction m as [|[k' v'] m IH]; simpl; auto.
  destruct (String.eqb k k') eqn:E; [discriminate|].
  intros H. now rewrite IH.
Qed.

Lemma models_keys models enums ms tys tys' :
  forOf (translateModel models enums) ms tys = Ok tys' ->
  NoDup (map (fun m => model_name (model m)) ms) ->
  (forall m, In m ms -> ohas (model_name (model m)) tys = false) ->
  okeys tys' = (okeys tys ++ map (fun m => model_name (model m)) ms)%list.
Proof.
  revert tys. induction ms as [|m ms IH]; intros tys H Hnd Hfresh.
  - simpl in H. injection H as <-. simpl. now rewrite app_nil_r.
  - apply models_cons_ok in H. destruct H as [ty [_ H]].
    inversion Hnd as [|? ? Hnot Hnd']; subst.
    rewrite (IH _ H Hnd').
    + rewrite oset_fresh by (apply Hfresh; now left).
      unfold okeys. rewrite map_app. simpl. now rewrite <- app_assoc.
    + intros m' Hm'. unfold ohas. rewrite oget_oset_ne.
      * apply Hfresh. now right.
      * intros Heq. apply Hnot. rewrite <- Heq.
        now apply (in_map (fun m => model_name (model m))).
Qed.

(** X2.  A successful run holds exactly one object type for each model of the
    index, under the model's name and in the order of the index. *)
Theorem types_follow_model_index s out :
  translateSchema s = Ok out ->
  okeys (types out) = okeys (indexModels s).
Proof.
  intros H. apply translateSchema_ok in H. destruct H as [_ H].
  rewrite (@models_keys _ _ _ _ _ H (indexModels_names_NoDup s)).
  - simpl. apply okeys_ovalues. intros k v Hin. now apply indexModels_In in Hin.
  - reflexivity.
Qed.

Lemma types_follow_model_index_witness :
  okeys (types exampleTarget) = ["User"; "Profile"; "Post"; "Category"].
Proof.
  exact (types_follow_model_index exampleSchema eq_refl).
Defined.

(** ** The normalizer *)

Lemma fold_index_distinct (X V : Type) (entry : X -> option (string * V))
    (xs : list X) (acc : omap V) :
  NoDup (okeys acc ++ okeys (entriesOf entry xs)) ->
  fold_left (indexStep entry) xs acc = (acc ++ entriesOf entry xs)%list.
Proof.
  revert acc. induction xs as [|x xs IH]; intros acc Hnd; simpl.
  - now rewrite app_nil_r.
  - unfold entriesOf in *. simpl in *. unfold indexStep at 2.
    destruct (entry x) as [[k v]|]; simpl in *.
    + assert (Hfresh : ohas k acc = false).
      { apply ohas_false, oget_None. intros Hin.
        apply NoDup_remove_2 in Hnd. apply Hnd.
        apply in_or_app. now left. }
      rewrite (oset_fresh k v acc Hfresh). rewrite IH.
      * now rewrite <- app_assoc.
      * unfold okeys in *. rewrite map_app. simpl.
        now rewrite <- app_assoc.
    + now apply IH.
Qed.

Lemma indexBy_distinct (X V : Type) (entry : X -> option (string * V))
    (xs : list X) :
  NoDup (okeys (entriesOf entry xs)) ->
  indexBy entry xs = entriesOf entry xs.
Proof.
  intros Hnd. unfold indexBy. now rewrite fold_index_distinct.
Qed.

Lemma fold_index_filter (X V : Type) (entry : X -> option (string * V))
    (keep : X -> bool) (xs : list X) (acc : omap V) :
  (forall x, keep x = false -> entry x = None) ->
  fold_left (indexStep entry) (filter keep xs) acc
  = fold_left (indexStep entry) xs acc.
Proof.
  intros Hkeep. revert acc. induction xs as [|x xs IH]; intros acc; simpl; auto.
  destruct (keep x) eqn:E; simpl.
  - apply IH.
  - rewrite IH. unfold indexStep at 3. now rewrite (Hkeep x E).
Qed.

Lemma modelEntry_keys l :
  okeys (entriesOf modelEntry l) = declaredModelNames {| list_ := l |}.
Proof.
  unfold entriesOf, declaredModelNames, okeys. simpl.
  induction l as [|[m|e|] l IH]; simpl; congruence.
Qed.

Lemma enumEntry_keys l :
  okeys (entriesOf enumEntry l) = declaredEnumNames {| list_ := l |}.
Proof.
  unfold entriesOf, declaredEnumNames, okeys. simpl.
  induction l as [|[m|e|] l IH]; simpl; congruence.
Qed.

(** X3.  When the model names of a schema are pairwise distinct, a successful
    run holds the object types in the order the models are declared; when
    the enum names are pairwise distinct, it holds the enums in the order
    they are declared. *)
Theorem declaration_order_kept s out :
  translateSchema s = Ok out ->
  (NoDup (declaredModelNames s) -> okeys (types out) = declaredModelNames s)
  /\ (NoDup (declaredEnumNames s) -> okeys (enums out) = declaredEnumNames s).
Proof.
  intros H. destruct s as [l]. split; intros Hnd.
  - apply translateSchema_ok in H. destruct H as [_ H].
    rewrite (@models_keys _ _ _ _ _ H
               (indexModels_names_NoDup {| list_ := l |}))
      by reflexivity.
    simpl. rewrite okeys_ovalues
      by (intros k v Hin; now apply indexModels_In in Hin).
    rewrite <- modelEntry_keys in *. unfold indexModels. simpl.
    now rewrite indexBy_distinct.
  - apply translateSchema_ok in H. destruct H as [-> _].
    rewrite <- enumEntry_keys in *. unfold translateEnums. simpl.
    now rewrite indexBy_distinct.
Qed.

Lemma declaration_order_kept_witness :
  okeys (types exampleTarget) = ["User"; "Profile"; "Post"; "Category"]
  /\ okeys (enums exampleTarget) = ["Role"].
Proof.
  pose proof (declaration_order_kept exampleSchema eq_refl) as [Hm He].
  split.
  - apply Hm. simpl.
    repeat (constructor; [simpl; intuition discriminate|]). constructor.
  - apply He. simpl.
    repeat (constructor; [simpl; intuition discriminate|]). constructor.
Defined.

(** X4.  In each of the three [reduce] loops the last declaration under a
    name is the one the index holds: the last model block of a name (with the
    fields of that block), the last field of a name within a model, and the
    last attribute of a name on a field. *)
Theorem last_declaration_wins :
  (forall s pre m post,
      list_ s = (pre ++ BModel m :: post)%list ->
      (forall m', In (BModel m') post -> model_name m' <> model_name m) ->
      oget (model_name m) (indexModels s)
      = Some {| model := m; fields := indexFields (properties m) |})
  /\ (forall ps pre f post,
         ps = (pre ++ PField f :: post)%list ->
         (forall f', In (PField f') post -> name f' <> name f) ->
         oget (name f) (indexFields ps)
         = Some {| field := f; attrs := indexAttrs f |})
  /\ (forall f pre a post,
         attributes f = Some (pre ++ a :: post)%list ->
         (forall a', In a' post -> attr_name a' <> attr_name a) ->
         oget (attr_name a) (indexAttrs f) = Some a).
Proof.
  repeat split.
  - intros s pre m post Hl Hlast. unfold indexModels. rewrite Hl.
    apply indexBy_last; [reflexivity|].
    intros b v Hb Hentry. destruct b as [m'|e|]; try discriminate.
    simpl in Hentry. injection Hentry as Hn _. exact (Hlast m' Hb Hn).
  - intros ps pre f post -> Hlast. unfold indexFields.
    apply indexBy_last; [reflexivity|].
    intros p v Hp Hentry. destruct p as [f'| | | |]; try discriminate.
    simpl in Hentry. injection Hentry as Hn _. exact (Hlast f' Hp Hn).
  - intros f pre a post Hl Hlast. unfold indexAttrs. rewrite Hl.
    apply indexBy_last; [reflexivity|].
    intros a' v Ha Hentry. injection Hentry as Hn _. exact (Hlast a' Ha Hn).
Qed.

Lemma last_declaration_wins_witness :
  oget "id" (indexFields [idField; fieldOf "id" "String" None None None])
  = Some {| field := {| name := "id"; fieldType := TName "String";
                        array := None; optional := None;
                        attributes := None |};
            attrs := indexAttrs {| name := "id"; fieldType := TName "String";
                                   array := None; optional := None;
                                   attributes := None |} |}.
Proof.
  refine (proj1 (proj2 last_declaration_wins)
            [idField; fieldOf "id" "String" None None None] [idField]
            {| name := "id"; fieldType := TName "String"; array := None;
               optional := None; attributes := None |}
            [] eq_refl _).
  intros f' [].
Defined.

(** X5.  Blocks that are neither models nor enums play no part: the run on
    the schema without them is the run on the schema. *)
Theorem other_blocks_ignored s :
  translateSchema (dropOtherBlocks s) = translateSchema s.
Proof.
  assert (Hm : indexModels (dropOtherBlocks s) = indexModels s).
  { unfold indexModels, indexBy, dropOtherBlocks. simpl.
    apply fold_index_filter. intros [m|e|]; simpl; congruence. }
  assert (He : translateEnums (dropOtherBlocks s) = translateEnums s).
  { unfold translateEnums, indexBy, dropOtherBlocks. simpl.
    apply fold_index_filter. intros [m|e|]; simpl; congruence. }
  unfold translateSchema. now rewrite Hm, He.
Qed.

(** X6.  A schema that declares no model never fails: the result holds its
    enums and no object type. *)
Theorem no_model_never_fails s :
  (forall m, ~ In (BModel m) (list_ s)) ->
  translateSchema s = Ok {| enums := translateEnums s; types := [] |}.
Proof.
  intros Hno.
  assert (Hm : indexModels s = []).
  { destruct (indexModels s) as [|[k v] l] eqn:E; [reflexivity|].
    exfalso. assert (Hin : In (k, v) (indexModels s)) by (rewrite E; now left).
    apply indexModels_In in Hin. destruct Hin as (_ & _ & Hin).
    exact (Hno _ Hin). }
  unfold translateSchema. now rewrite Hm.
Qed.

Lemma no_model_never_fails_witness :
  translateSchema redeclaredEnumSchema
  = Ok {| enums := [("Role", {| values := ["GUEST"] |})]; types := [] |}.
Proof.
  refine (no_model_never_fails redeclaredEnumSchema _).
  intros m [H|[H|[]]]; discriminate H.
Defined.

(** ** The three maps of an object type *)

Lemma candidates_Some models owner f n target :
  fieldType (field f) = TName n ->
  oget n models = Some target ->
  candidates models owner f
  = Some (linkPair target (model_name (model owner))).
Proof.
  intros Ht Hg. unfold candidates.
  assert (E : isLink models f = Some n).
  { eapply isLink_own; eauto. }
  now rewrite E, Hg.
Qed.

Lemma candidates_inv models owner f l :
  candidates models owner f = Some l ->
  exists n target,
    fieldType (field f) = TName n
    /\ oget n models = Some target
    /\ l = linkPair target (model_name (model owner)).
Proof.
  unfold candidates. destruct (isLink models f) as [n|] eqn:E; [|discriminate].
  apply isLink_Some in E. destruct E as [Ht _].
  destruct (oget n models) as [target|] eqn:Hg; [|discriminate].
  intros [= <-]. exists n, target. auto.
Qed.

(** Which map the loop body writes, read off the field alone. *)
Lemma classify_becomes models enums owner f o :
  classify models enums owner f = Ok o ->
  (becomesProp models f, becomesLink models owner f,
   becomesBacklink models owner f)
  = match o with
    | StoredProp _ => (true, false, false)
    | StoredLink _ _ => (false, true, false)
    | ComputedBacklink _ => (false, false, true)
    end.
Proof.
  intros Hc. destruct o as [b|id p|p].
  - apply classify_backlink_inv in Hc.
    destruct Hc as (n & target & g & Ht & Hg & Hp & _).
    unfold becomesLink, becomesBacklink.
    rewrite (candidates_Some models owner f Ht Hg), Hp.
    unfold becomesProp.
    assert (E : isLink models f = Some n).
    { eapply isLink_own; eauto. }
    now rewrite E.
  - apply classify_link_inv in Hc.
    destruct Hc as (n & target & Ht & Hg & Hp & _).
    unfold becomesLink, becomesBacklink.
    rewrite (candidates_Some models owner f Ht Hg), Hp.
    unfold becomesProp.
    assert (E : isLink models f = Some n).
    { eapply isLink_own; eauto. }
    now rewrite E.
  - apply classify_prop_inv in Hc. destruct Hc as [E _].
    unfold becomesLink, becomesBacklink, candidates, becomesProp.
    now rewrite E.
Qed.

Lemma fields_keys models enums owner fs t t' :
  forOf (translateField models enums owner) fs t = Ok t' ->
  NoDup (map (fun f => name (field f)) fs) ->
  (forall f, In f fs -> slot (name (field f)) t = (None, None, None)) ->
  okeys (props t')
  = (okeys (props t)
     ++ map (fun f => name (field f)) (filter (becomesProp models) fs))%list
  /\ okeys (links t')
     = (okeys (links t)
        ++ map (fun f => name (field f))
               (filter (becomesLink models owner) fs))%list
  /\ okeys (backlinks t')
     = (okeys (backlinks t)
        ++ map (fun f => name (field f))
               (filter (becomesBacklink models owner) fs))%list.
Proof.
  revert t. induction fs as [|f fs IH]; intros t H Hnd Hfresh.
  - simpl in H. injection H as <-. simpl. now rewrite !app_nil_r.
  - apply fields_cons_ok in H. destruct H as [o [Hc H]].
    inversion Hnd as [|? ? Hnot Hnd']; subst.
    assert (Hnext : forall f', In f' fs ->
              slot (name (field f')) (place t (name (field f)) o)
              = (None, None, None)).
    { intros f' Hin. rewrite slot_place_ne.
      - apply Hfresh. now right.
      - intros Heq. apply Hnot. rewrite <- Heq.
        now apply (in_map (fun f => name (field f))). }
    destruct (IH _ H Hnd' Hnext) as (Hp & Hl & Hb).
    rewrite Hp, Hl, Hb. clear Hp Hl Hb IH.
    pose proof (Hfresh f (or_introl eq_refl)) as Hs.
    unfold slot in Hs. injection Hs as Hsp Hsl Hsb.
    apply ohas_false in Hsp, Hsl, Hsb.
    pose proof (classify_becomes _ _ _ _ Hc) as Hb.
    simpl filter.
    destruct o as [b|id p|p]; injection Hb as -> -> ->; simpl;
      rewrite ?oset_fresh by assumption;
      unfold okeys; rewrite ?map_app; simpl;
      rewrite <- ?app_assoc; simpl; auto.
Qed.

(** X7.  In a successful run the keys of [props], of [links] and of
    [backlinks] of an object type are the names of the model's fields that
    are not links, that are links without an inverse candidate, and that are
    links with an inverse candidate, each in the order of the model's
    fields. *)
Theorem sections_follow_field_order s out A mA ty :
  translateSchema s = Ok out ->
  oget A (indexModels s) = Some mA ->
  oget A (types out) = Some ty ->
  okeys (props ty)
  = map (fun f => name (field f))
        (filter (becomesProp (indexModels s)) (ovalues (fields mA)))
  /\ okeys (links ty)
     = map (fun f => name (field f))
           (filter (becomesLink (indexModels s) mA) (ovalues (fields mA)))
  /\ okeys (backlinks ty)
     = map (fun f => name (field f))
           (filter (becomesBacklink (indexModels s) mA)
                   (ovalues (fields mA))).
Proof.
  intros Hrun HA Hty.
  destruct (translateSchema_type _ _ Hrun HA) as (ty' & Hty' & Hfields).
  rewrite Hty in Hty'. injection Hty' as <-.
  unfold translateFields in Hfields.
  apply (@fields_keys _ _ _ _ _ _ Hfields).
  - eapply model_fields_NoDup, oget_ovalues; exact HA.
  - reflexivity.
Qed.

Lemma sections_follow_field_order_witness :
  okeys (props (typeAt exampleTarget "Post"))
  = ["id"; "createdAt"; "title"; "published"; "authorId"]
  /\ okeys (links (typeAt exampleTarget "Post"))
     = ["author"; "categories"]
  /\ okeys (backlinks (typeAt exampleTarget "User"))
     = ["posts"; "profile"].
Proof.
  pose proof (@sections_follow_field_order
                exampleSchema exampleTarget
                "Post" (modelAt exampleSchema "Post")
                (typeAt exampleTarget "Post")
                eq_refl eq_refl eq_refl) as (Hp & Hl & _).
  pose proof (@sections_follow_field_order
                exampleSchema exampleTarget
                "User" (modelAt exampleSchema "User")
                (typeAt exampleTarget "User")
                eq_refl eq_refl eq_refl) as (_ & _ & Hb).
  exact (conj Hp (conj Hl Hb)).
Defined.

(** What an object type holds under a name comes from the model's field of
    that name. *)
Lemma slot_origin s out A mA ty F :
  translateSchema s = Ok out ->
  oget A (indexModels s) = Some mA ->
  oget A (types out) = Some ty ->
  match oget F (fields mA) with
  | None => slot F ty = (None, None, None)
  | Some f =>
      exists o,
        classify (indexModels s) (translateEnums s) mA f = Ok o
        /\ slot F ty =
           match o with
           | ComputedBacklink b => (None, None, Some b)
           | StoredLink _ p => (None, Some p, None)
           | StoredProp p => (Some p, None, None)
           end
  end.
Proof.
  intros Hrun HA Hty.
  destruct (oget F (fields mA)) as [f|] eqn:HF.
  - destruct (translateSchema_slot _ _ _ Hrun HA HF)
      as (ty' & o & Hty' & _ & Hc & Hslot).
    rewrite Hty in Hty'. injection Hty' as <-. eauto.
  - destruct (translateSchema_type _ _ Hrun HA) as (ty' & Hty' & Hfields).
    rewrite Hty in Hty'. injection Hty' as <-.
    exact (translateFields_absent s mA F (oget_ovalues _ _ HA) Hfields HF).
Qed.

(** X8.  In a successful run every field of a model is held by exactly one
    of [props], [links] and [backlinks] of its object type, and a name that
    is not a field of the model is held by none. *)
Theorem field_in_exactly_one_map s out A mA ty F :
  translateSchema s = Ok out ->
  oget A (indexModels s) = Some mA ->
  oget A (types out) = Some ty ->
  match oget F (fields mA) with
  | None =>
      oget F (props ty) = None /\ oget F (links ty) = None
      /\ oget F (backlinks ty) = None
  | Some _ =>
      (ohas F (props ty) = true /\ ohas F (links ty) = false
       /\ ohas F (backlinks ty) = false)
      \/ (ohas F (props ty) = false /\ ohas F (links ty) = true
          /\ ohas F (backlinks ty) = false)
      \/ (ohas F (props ty) = false /\ ohas F (links ty) = false
          /\ ohas F (backlinks ty) = true)
  end.
Proof.
  intros Hrun HA Hty.
  pose proof (@slot_origin s out A mA ty F Hrun HA Hty) as H.
  destruct (oget F (fields mA)) as [f|].
  - destruct H as (o & _ & Hs). unfold slot in Hs. unfold ohas.
    destruct o as [b|id p|p]; injection Hs as -> -> ->; auto.
  - unfold slot in H. injection H as -> -> ->. auto.
Qed.

Lemma field_in_exactly_one_map_witness :
  (ohas "author" (props (typeAt exampleTarget "Post")) = true
   /\ ohas "author" (links (typeAt exampleTarget "Post")) = false
   /\ ohas "author" (backlinks (typeAt exampleTarget "Post")) = false)
  \/ (ohas "author" (props (typeAt exampleTarget "Post")) = false
      /\ ohas "author" (links (typeAt exampleTarget "Post")) = true
      /\ ohas "author" (backlinks (typeAt exampleTarget "Post")) = false)
  \/ (ohas "author" (props (typeAt exampleTarget "Post")) = false
      /\ ohas "author" (links (typeAt exampleTarget "Post")) = false
      /\ ohas "author" (backlinks (typeAt exampleTarget "Post")) = true).
Proof.
  exact (@field_in_exactly_one_map
           exampleSchema exampleTarget
           "Post" (modelAt exampleSchema "Post")
           (typeAt exampleTarget "Post")
           "author" eq_refl eq_refl eq_refl).
Defined.

(** ** Stored pointers and backlinks refer to what exists *)

Lemma edbPointer_property_type models enums f p :
  isLink models f = None ->
  edbPointer enums false f = Ok p ->
  ohas (type_ p) enums = true \/ In (type_ p) (ovalues typeMapping).
Proof.
  intros Hlink H.
  destruct (isLink_None _ _ Hlink) as [(n & Ht & _ & Hi)|(fn & ps & Ht)].
  - destruct (ohas n enums) eqn:E.
    + rewrite (edbPointer_enum _ _ Ht E) in H. injection H as <-.
      simpl. now left.
    + destruct (oget n typeMapping) as [scalar|] eqn:Et.
      * rewrite (edbPointer_scalar _ _ Ht E Et) in H. injection H as <-.
        simpl. right. exact (oget_ovalues _ _ Et).
      * rewrite (edbPointer_unknown _ _ Ht E Et Hi) in H. discriminate H.
  - rewrite (edbPointer_function _ false _ Ht) in H. discriminate H.
Qed.

(** X9.  In a successful run every entry of [props] is a property whose type
    is a declared enum of the result or one of the scalars of the table, and
    every entry of [links] is a link whose type is the name of an object type
    of the result. *)
Theorem stored_pointers_are_well_typed s out A ty :
  translateSchema s = Ok out ->
  oget A (types out) = Some ty ->
  (forall F p,
      oget F (props ty) = Some p ->
      kind p = property
      /\ (ohas (type_ p) (enums out) = true
          \/ In (type_ p) (ovalues typeMapping)))
  /\ (forall F p,
         oget F (links ty) = Some p ->
         kind p = link /\ ohas (type_ p) (types out) = true).
Proof.
  intros Hrun Hty.
  destruct (translateSchema_type_origin _ _ Hrun Hty) as (mA & HA & _).
  pose proof Hrun as Hok. apply translateSchema_ok in Hok.
  destruct Hok as [Henums _].
  split; intros F p Hp;
    pose proof (@slot_origin s out A mA ty F Hrun HA Hty) as H;
    destruct (oget F (fields mA)) as [f|];
    unfold slot in H.
  - destruct H as (o & Hc & Hs). rewrite Hp in Hs.
    destruct o as [b|id q|q]; try discriminate Hs. injection Hs as ->.
    apply classify_prop_inv in Hc. destruct Hc as [Hlink Hq].
    split.
    + now apply edbPointer_ok in Hq.
    + rewrite Henums. exact (@edbPointer_property_type _ _ _ _ Hlink Hq).
  - congruence.
  - destruct H as (o & Hc & Hs). rewrite Hp in Hs.
    destruct o as [b|id q|q]; try discriminate Hs.
    injection Hs as _ Hpq _. subst q.
    apply classify_link_inv in Hc.
    destruct Hc as (n & target & Ht & Hg & _ & _ & Hq).
    rewrite (edbPointer_link _ f Ht) in Hq. injection Hq as <-. simpl.
    split; [reflexivity|].
    destruct (translateSchema_type _ _ Hrun Hg) as (tyB & HtyB & _).
    apply ohas_true. eauto.
  - congruence.
Qed.

Lemma stored_pointers_are_well_typed_witness :
  (forall F p,
      oget F (props (typeAt exampleTarget "Post")) = Some p ->
      kind p = property
      /\ (ohas (type_ p) (enums exampleTarget) = true
          \/ In (type_ p) (ovalues typeMapping)))
  /\ (forall F p,
         oget F (links (typeAt exampleTarget "Post")) = Some p ->
         kind p = link /\ ohas (type_ p) (types exampleTarget) = true).
Proof.
  exact (@stored_pointers_are_well_typed
           exampleSchema exampleTarget "Post"
           (typeAt exampleTarget "Post")
           eq_refl eq_refl).
Defined.

Lemma fieldTypeIs_true t n : fieldTypeIs t n = true -> t = TName n.
Proof.
  destruct t as [n'|fn ps]; simpl; [|discriminate].
  intros H. apply String.eqb_eq in H. now subst.
Qed.

Lemma model_field_by_name s B mB g :
  oget B (indexModels s) = Some mB ->
  In g (ovalues (fields mB)) ->
  oget (name (field g)) (fields mB) = Some g.
Proof.
  intros HB Hin. apply indexModels_oget in HB. destruct HB as (_ & Hf & _).
  rewrite Hf in *. apply In_ovalues in Hin. destruct Hin as [k Hin].
  pose proof (indexFields_In _ _ _ Hin) as (Hn & _ & _).
  apply In_oget; [apply indexBy_NoDup|]. now rewrite Hn.
Qed.

(** X10.  In a successful run every entry of [backlinks] of the type of
    model [A] comes from a field of [A] whose type names an indexed model
    [B], and navigates through a field [G] that [B] does hold: [G] carries a
    relation attribute, its declared type is [A], [B] has an object type in
    the result, and the entry is [.<G[is B];] with the list-ness of the
    field of [A]. *)
Theorem backlinks_point_at_relation_fields s out A mA ty F b :
  translateSchema s = Ok out ->
  oget A (indexModels s) = Some mA ->
  oget A (types out) = Some ty ->
  oget F (backlinks ty) = Some b ->
  exists f B mB g,
    oget F (fields mA) = Some f
    /\ fieldType (field f) = TName B
    /\ oget B (indexModels s) = Some mB
    /\ ohas B (types out) = true
    /\ oget (name (field g)) (fields mB) = Some g
    /\ ohas "relation" (attrs g) = true
    /\ fieldType (field g) = TName A
    /\ b = {| expr := ".<" ++ name (field g) ++ "[is " ++ B ++ "];";
              bl_multi := truthy (array (field f)) |}.
Proof.
  intros Hrun HA Hty Hb.
  pose proof (@slot_origin s out A mA ty F Hrun HA Hty) as H.
  destruct (oget F (fields mA)) as [f|]; unfold slot in H; [|congruence].
  destruct H as (o & Hc & Hs). rewrite Hb in Hs.
  destruct o as [b'|id q|q]; try discriminate Hs.
  injection Hs as _ _ Hbb. subst b'.
  apply classify_backlink_inv in Hc.
  destruct Hc as (B & mB & g & Ht & HB & Hpair & ->).
  destruct (indexModels_oget _ _ HA) as (HnA & _ & _).
  destruct (indexModels_oget _ _ HB) as (HnB & _ & _).
  rewrite HnA in Hpair. rewrite HnB.
  assert (Hg : In g (linkPair mB A)) by (rewrite Hpair; now left).
  unfold linkPair in Hg. apply filter_In in Hg. destruct Hg as [Hin Hcand].
  unfold isBacklinkCandidate in Hcand. apply andb_true_iff in Hcand.
  destruct Hcand as [Hrel Htype].
  destruct (translateSchema_type _ _ Hrun HB) as (tyB & HtyB & _).
  exists f, B, mB, g. repeat match goal with |- _ /\ _ => split end; auto.
  - apply ohas_true. eauto.
  - exact (@model_field_by_name s B mB g HB Hin).
  - now apply fieldTypeIs_true.
Qed.

Lemma backlinks_point_at_relation_fields_witness :
  exists f B mB g,
    oget "profile" (fields (modelAt exampleSchema "User")) = Some f
    /\ fieldType (field f) = TName B
    /\ oget B (indexModels exampleSchema) = Some mB
    /\ ohas B (types exampleTarget) = true
    /\ oget (name (field g)) (fields mB) = Some g
    /\ ohas "relation" (attrs g) = true
    /\ fieldType (field g) = TName "User"
    /\ {| expr := ".<user[is Profile];"; bl_multi := false |}
       = {| expr := ".<" ++ name (field g) ++ "[is " ++ B ++ "];";
            bl_multi := truthy (array (field f)) |}.
Proof.
  exact (@backlinks_point_at_relation_fields
           exampleSchema exampleTarget
           "User" (modelAt exampleSchema "User")
           (typeAt exampleTarget "User")
           "profile" {| expr := ".<user[is Profile];"; bl_multi := false |}
           eq_refl eq_refl eq_refl eq_refl).
Defined.

(** ** Links without an inverse candidate, and backlinks *)

(** X11.  A link field whose target model has no inverse candidate is the
    owning side: a successful run stores it in [links] as a link typed by
    the target model's name, with the field's own list-ness, optionality,
    uniqueness and default, and holds nothing under its name in [props] or
    [backlinks]. *)
Theorem owning_side_is_stored_link s out A mA F f B mB :
  translateSchema s = Ok out ->
  oget A (indexModels s) = Some mA ->
  oget F (fields mA) = Some f ->
  fieldType (field f) = TName B ->
  oget B (indexModels s) = Some mB ->
  linkPair mB A = [] ->
  exists ty,
    oget A (types out) = Some ty
    /\ oget F (links ty)
       = Some {| kind := link;
                 multi := truthy (array (field f));
                 required := if truthy (array (field f)) then false
                             else negb (truthy (optional (field f)));
                 type_ := B;
                 exclusive := ohas "unique" (attrs f);
                 default := getFieldDefault (translateEnums s) f |}
    /\ oget F (props ty) = None
    /\ oget F (backlinks ty) = None.
Proof.
  intros Hrun HA HF Ht HB Hpair.
  destruct (translateSchema_slot _ _ _ Hrun HA HF)
    as (ty & o & Hty & _ & Hc & Hslot).
  destruct (indexModels_oget _ _ HA) as (HnA & _ & _).
  rewrite (classify_owning (indexModels s) (translateEnums s) mA f Ht HB)
    in Hc by (now rewrite HnA).
  rewrite (edbPointer_link (translateEnums s) f Ht) in Hc.
  destruct (linkIdOf f) as [id|e]; cbn [bind] in Hc; [|discriminate Hc].
  injection Hc as <-. unfold slot in Hslot. injection Hslot as Hp Hl Hb.
  exists ty. auto.
Qed.

Lemma owning_side_is_stored_link_witness :
  exists ty,
    oget "Profile" (types exampleTarget) = Some ty
    /\ oget "user" (links ty)
       = Some {| kind := link; multi := false; required := true;
                 type_ := "User"; exclusive := false; default := None |}
    /\ oget "user" (props ty) = None
    /\ oget "user" (backlinks ty) = None.
Proof.
  exact (@owning_side_is_stored_link
           exampleSchema exampleTarget
           "Profile" (modelAt exampleSchema "Profile")
           "user" (fieldAt exampleSchema "Profile" "user")
           "User" (modelAt exampleSchema "User")
           eq_refl eq_refl eq_refl eq_refl eq_refl eq_refl).
Defined.

(** X12.  The relation attribute of a field that has an inverse candidate is
    never read: whatever it lists under [fields], several names or no list
    at all, the loop body returns normally, writes the backlink and leaves
    [props], [links] and [linkIds] as they were. *)
Theorem backlink_skips_id_check s A mA F f B mB g :
  oget A (indexModels s) = Some mA ->
  oget F (fields mA) = Some f ->
  fieldType (field f) = TName B ->
  oget B (indexModels s) = Some mB ->
  linkPair mB A = [g] ->
  fieldError s (mA, f) = None
  /\ forall t,
       exists t',
         translateField (indexModels s) (translateEnums s) mA t f = Ok t'
         /\ props t' = props t /\ links t' = links t
         /\ linkIds t' = linkIds t
         /\ ohas F (backlinks t') = true.
Proof.
  intros HA HF Ht HB Hpair.
  destruct (indexModels_oget _ _ HA) as (HnA & _ & _).
  pose proof (model_field_name _ _ _ HA HF) as Hname.
  assert (Hc : exists b,
             classify (indexModels s) (translateEnums s) mA f
             = Ok (ComputedBacklink b)).
  { rewrite (classify_backlink (indexModels s) (translateEnums s) mA f
               Ht HB (g := g) (rest := [])) by (now rewrite HnA).
    simpl. eauto. }
  destruct Hc as [b Hc]. split.
  - rewrite fieldError_classify. now rewrite Hc.
  - intros t. rewrite translateField_classify, Hc. cbn [bind place].
    eexists. split; [reflexivity|]. rewrite Hname. simpl.
    repeat split. apply ohas_true. eexists. apply oget_oset_eq.
Qed.

Lemma backlink_skips_id_check_witness :
  idFields (fieldAt mutualRelationSchema "Owner" "pet")
  = Some {| key := "fields"; value := VRelArray ["petKind"; "petName"] |}
  /\ fieldError mutualRelationSchema
       (modelAt mutualRelationSchema "Owner",
        fieldAt mutualRelationSchema "Owner" "pet") = None.
Proof.
  split; [reflexivity|].
  exact (proj1 (@backlink_skips_id_check
                  mutualRelationSchema
                  "Owner" (modelAt mutualRelationSchema "Owner")
                  "pet" (fieldAt mutualRelationSchema "Owner" "pet")
                  "Pet" (modelAt mutualRelationSchema "Pet")
                  (fieldAt mutualRelationSchema "Pet" "owner")
                  eq_refl eq_refl eq_refl eq_refl eq_refl)).
Defined.

(** X13.  On an owning-side link the check is [length !== 1]: an empty list
    under [fields] is refused like a list of several names, with
    [UnsupportedCompositeKeyError]. *)
Theorem empty_id_list_is_refused s A mA F f B mB kv :
  oget A (indexModels s) = Some mA ->
  oget F (fields mA) = Some f ->
  fieldType (field f) = TName B ->
  oget B (indexModels s) = Some mB ->
  linkPair mB A = [] ->
  idFields f = Some kv ->
  value kv = VRelArray [] ->
  failsWith s (mA, f) UnsupportedCompositeKeyError.
Proof.
  intros HA HF Ht HB Hpair Hkv Hval.
  destruct (indexModels_oget _ _ HA) as (HnA & _ & _).
  apply failsWith_intro; [eapply workList_In; eauto|].
  rewrite fieldError_classify.
  rewrite (classify_owning (indexModels s) (translateEnums s) mA f Ht HB)
    by (now rewrite HnA).
  unfold linkIdOf. now rewrite Hkv, Hval.
Qed.

Lemma empty_id_list_is_refused_witness :
  translateSchema emptyFieldsSchema = Throw UnsupportedCompositeKeyError.
Proof.
  refine (proj2 (proj2 (@empty_id_list_is_refused
                          emptyFieldsSchema
                          "Post" (modelAt emptyFieldsSchema "Post")
                          "author" (fieldAt emptyFieldsSchema "Post" "author")
                          "User" (modelAt emptyFieldsSchema "User")
                          {| key := "fields"; value := VRelArray [] |}
                          eq_refl eq_refl eq_refl eq_refl eq_refl eq_refl
                          eq_refl))
                [(modelAt emptyFieldsSchema "Post",
                  fieldAt emptyFieldsSchema "Post" "id")]
                (map (pair (modelAt emptyFieldsSchema "User"))
                     (ovalues (fields (modelAt emptyFieldsSchema "User"))))
                eq_refl _).
  intros y [<-|[]]. reflexivity.
Defined.

(** X14.  On an owning-side link whose [fields] argument holds anything but
    the array of a relation (a bare name, a number, a call), the length test
    reads [.args.length] of a value without [args]: the loop body ends with
    the runtime's type error, not with one of the translator's messages. *)
Theorem malformed_id_list_is_a_runtime_error s A mA F f B mB kv :
  oget A (indexModels s) = Some mA ->
  oget F (fields mA) = Some f ->
  fieldType (field f) = TName B ->
  oget B (indexModels s) = Some mB ->
  linkPair mB A = [] ->
  idFields f = Some kv ->
  (forall ids, value kv <> VRelArray ids) ->
  failsWith s (mA, f) RuntimeTypeError.
Proof.
  intros HA HF Ht HB Hpair Hkv Hval.
  destruct (indexModels_oget _ _ HA) as (HnA & _ & _).
  apply failsWith_intro; [eapply workList_In; eauto|].
  rewrite fieldError_classify.
  rewrite (classify_owning (indexModels s) (translateEnums s) mA f Ht HB)
    by (now rewrite HnA).
  unfold linkIdOf. rewrite Hkv.
  destruct (value kv) as [v|n|b|fn ps|ids|items]; try reflexivity.
  now destruct (Hval ids).
Qed.

Lemma malformed_id_list_is_a_runtime_error_witness :
  translateSchema malformedFieldsSchema = Throw RuntimeTypeError.
Proof.
  refine (proj2 (proj2 (@malformed_id_list_is_a_runtime_error
                          malformedFieldsSchema
                          "Post" (modelAt malformedFieldsSchema "Post")
                          "author"
                          (fieldAt malformedFieldsSchema "Post" "author")
                          "User" (modelAt malformedFieldsSchema "User")
                          {| key := "fields"; value := VString "authorId" |}
                          eq_refl eq_refl eq_refl eq_refl eq_refl eq_refl _))
                [(modelAt malformedFieldsSchema "Post",
                  fieldAt malformedFieldsSchema "Post" "id")]
                ((modelAt malformedFieldsSchema "Post",
                  fieldAt malformedFieldsSchema "Post" "authorId")
                 :: map (pair (modelAt malformedFieldsSchema "User"))
                        (ovalues (fields (modelAt malformedFieldsSchema "User"))))
                eq_refl _).
  - intros ids H. discriminate H.
  - intros y [<-|[]]. reflexivity.
Defined.

(** X15.  When the two fields of a relation both carry a relation attribute
    and each is the only inverse candidate of the other, a successful run
    stores no link for either: both are computed backlinks, each navigating
    through the other. *)
Theorem mutual_relation_has_no_stored_link s out A mA F f B mB G g :
  translateSchema s = Ok out ->
  oget A (indexModels s) = Some mA ->
  oget F (fields mA) = Some f ->
  fieldType (field f) = TName B ->
  oget B (indexModels s) = Some mB ->
  oget G (fields mB) = Some g ->
  fieldType (field g) = TName A ->
  linkPair mB A = [g] ->
  linkPair mA B = [f] ->
  exists tyA tyB,
    oget A (types out) = Some tyA
    /\ oget B (types out) = Some tyB
    /\ oget F (links tyA) = None
    /\ oget G (links tyB) = None
    /\ oget F (backlinks tyA)
       = Some {| expr := ".<" ++ G ++ "[is " ++ B ++ "];";
                 bl_multi := truthy (array (field f)) |}
    /\ oget G (backlinks tyB)
       = Some {| expr := ".<" ++ F ++ "[is " ++ A ++ "];";
                 bl_multi := truthy (array (field g)) |}.
Proof.
  intros Hrun HA HF HtF HB HG HtG HpairB HpairA.
  destruct (indexModels_oget _ _ HA) as (HnA & _ & _).
  destruct (indexModels_oget _ _ HB) as (HnB & _ & _).
  pose proof (model_field_name _ _ _ HA HF) as HnameF.
  pose proof (model_field_name _ _ _ HB HG) as HnameG.
  destruct (translateSchema_slot _ _ _ Hrun HA HF)
    as (tyA & oA & HtyA & _ & HcA & HsA).
  destruct (translateSchema_slot _ _ _ Hrun HB HG)
    as (tyB & oB & HtyB & _ & HcB & HsB).
  rewrite (classify_backlink (indexModels s) (translateEnums s) mA f
             HtF HB (g := g) (rest := [])) in HcA by (now rewrite HnA).
  rewrite (classify_backlink (indexModels s) (translateEnums s) mB g
             HtG HA (g := f) (rest := [])) in HcB by (now rewrite HnB).
  simpl in HcA, HcB. injection HcA as <-. injection HcB as <-.
  rewrite HnameG, HnB in HsA. rewrite HnameF, HnA in HsB.
  unfold slot in HsA, HsB.
  injection HsA as _ HlA HbA. injection HsB as _ HlB HbB.
  exists tyA, tyB. auto 10.
Qed.

Lemma mutual_relation_has_no_stored_link_witness :
  exists tyA tyB,
    oget "Owner" (types (valueOf (translateSchema mutualRelationSchema)))
    = Some tyA
    /\ oget "Pet" (types (valueOf (translateSchema mutualRelationSchema)))
       = Some tyB
    /\ oget "pet" (links tyA) = None
    /\ oget "owner" (links tyB) = None
    /\ oget "pet" (backlinks tyA)
       = Some {| expr := ".<owner[is Pet];"; bl_multi := false |}
    /\ oget "owner" (backlinks tyB)
       = Some {| expr := ".<pet[is Owner];"; bl_multi := false |}.
Proof.
  exact (@mutual_relation_has_no_stored_link
           mutualRelationSchema
           (valueOf (translateSchema mutualRelationSchema))
           "Owner" (modelAt mutualRelationSchema "Owner")
           "pet" (fieldAt mutualRelationSchema "Owner" "pet")
           "Pet" (modelAt mutualRelationSchema "Pet")
           "owner" (fieldAt mutualRelationSchema "Pet" "owner")
           eq_refl eq_refl eq_refl eq_refl eq_refl eq_refl eq_refl eq_refl
           eq_refl).
Defined.

(** ** From an attribute to the rendered line *)

Lemma stored_pointer_origin s out A mA F f ty p :
  translateSchema s = Ok out ->
  oget A (indexModels s) = Some mA ->
  oget F (fields mA) = Some f ->
  oget A (types out) = Some ty ->
  oget F (props ty) = Some p \/ oget F (links ty) = Some p ->
  exists asLink, edbPointer (translateEnums s) asLink f = Ok p.
Proof.
  intros Hrun HA HF Hty Hp.
  destruct (translateSchema_slot _ _ _ Hrun HA HF)
    as (ty' & o & Hty' & _ & Hc & Hslot).
  rewrite Hty in Hty'. injection Hty' as <-.
  unfold slot in Hslot.
  destruct o as [b|id q|q]; injection Hslot as Hp' Hl' Hb'.
  - destruct Hp as [Hp|Hp]; congruence.
  - apply classify_link_inv in Hc.
    destruct Hc as (n & target & _ & _ & _ & _ & Hq).
    exists true. destruct Hp as [Hp|Hp]; congruence.
  - apply classify_prop_inv in Hc. destruct Hc as [_ Hq].
    exists false. destruct Hp as [Hp|Hp]; congruence.
Qed.

(** A line of a pointer's attribute block is a segment of the pointer's
    text. *)
Lemma renderPointer_attr n p x :
  In x (pointerAttrs p) ->
  exists a b, renderPointer (n, p) = a ++ x ++ b.
Proof.
  intros Hin. unfold renderPointer.
  destruct (pointerAttrs p) as [|y l] eqn:E; [destruct Hin|].
  destruct (concat_In nl (y :: l) x Hin) as (a0 & b0 & Hab).
  rewrite Hab.
  exists ("    " ++ (if required p then "required " else EmptyString)
          ++ (if multi p then "multi " else EmptyString)
          ++ kindName (kind p) ++ " " ++ n ++ " -> " ++ type_ p
          ++ " {" ++ nl ++ a0),
         (b0 ++ nl ++ "    }" ++ ";").
  now rewrite !sapp_assoc.
Qed.

Lemma rendered_when_not_suppressed ty F p :
  oget F (props ty) = Some p \/ oget F (links ty) = Some p ->
  shas F (linkIds ty) = false ->
  In (renderPointer (F, p)) (typeBody ty).
Proof.
  intros Hp Hs. unfold typeBody. apply in_or_app. left.
  apply in_map. unfold renderedPointers. apply filter_In. split.
  - apply in_or_app. destruct Hp as [Hp|Hp]; [left|right]; now apply oget_In.
  - simpl. now rewrite Hs.
Qed.

(** X16.  A field that carries an attribute named [unique] and is stored as
    a pointer gets [exclusive], and the pointer's rendered text holds the
    line [constraint exclusive;]; unless the field's name is in [linkIds],
    that text is a line of the type's body. *)
Theorem unique_attribute_is_rendered s out A mA F f ty p ats a :
  translateSchema s = Ok out ->
  oget A (indexModels s) = Some mA ->
  oget F (fields mA) = Some f ->
  oget A (types out) = Some ty ->
  oget F (props ty) = Some p \/ oget F (links ty) = Some p ->
  attributes (field f) = Some ats ->
  In a ats ->
  attr_name a = "unique" ->
  exclusive p = true
  /\ (exists pre post,
         renderPointer (F, p) = pre ++ "      constraint exclusive;" ++ post)
  /\ (shas F (linkIds ty) = false ->
      In (renderPointer (F, p)) (typeBody ty)).
Proof.
  intros Hrun HA HF Hty Hp Hats Hin Hname.
  destruct (@stored_pointer_origin s out A mA F f ty p Hrun HA HF Hty Hp)
    as [asLink Hq].
  apply edbPointer_ok in Hq. destruct Hq as (_ & _ & _ & Hex & _).
  assert (Hattrs : attrs f = indexAttrs (field f)).
  { destruct (indexModels_oget _ _ HA) as (_ & Hf & _).
    rewrite Hf in HF. now apply indexFields_oget in HF. }
  assert (Hu : ohas "unique" (attrs f) = true).
  { rewrite Hattrs. unfold indexAttrs. rewrite Hats.
    eapply indexBy_declared; [exact Hin|]. now rewrite Hname. }
  rewrite Hu in Hex. repeat split; auto.
  - apply renderPointer_attr. unfold pointerAttrs. rewrite Hex.
    apply in_or_app. left. now left.
  - now apply rendered_when_not_suppressed.
Qed.

Lemma unique_attribute_is_rendered_witness :
  exists pre post,
    renderPointer
      ("email",
       {| kind := property; multi := false; required := true;
          type_ := "str"; exclusive := true; default := None |})
    = pre ++ "      constraint exclusive;" ++ post.
Proof.
  exact (proj1 (proj2 (@unique_attribute_is_rendered
           exampleSchema exampleTarget
           "User" (modelAt exampleSchema "User")
           "email" (fieldAt exampleSchema "User" "email")
           (typeAt exampleTarget "User")
           {| kind := property; multi := false; required := true;
              type_ := "str"; exclusive := true; default := None |}
           [attribute "unique" None] (attribute "unique" None)
           eq_refl eq_refl eq_refl eq_refl (or_introl eq_refl)
           eq_refl (or_introl eq_refl) eq_refl))).
Defined.

(** X17.  The default stored in a pointer is what [getFieldDefault] returns
    for the field; when that is a text [d], the pointer's rendered text holds
    the line [default := d;], and unless the field's name is in [linkIds]
    that text is a line of the type's body. *)
Theorem default_is_rendered s out A mA F f ty p d :
  translateSchema s = Ok out ->
  oget A (indexModels s) = Some mA ->
  oget F (fields mA) = Some f ->
  oget A (types out) = Some ty ->
  oget F (props ty) = Some p \/ oget F (links ty) = Some p ->
  getFieldDefault (translateEnums s) f = Some d ->
  default p = Some d
  /\ (exists pre post,
         renderPointer (F, p)
         = pre ++ ("      default := " ++ d ++ ";") ++ post)
  /\ (shas F (linkIds ty) = false ->
      In (renderPointer (F, p)) (typeBody ty)).
Proof.
  intros Hrun HA HF Hty Hp Hd.
  destruct (@stored_pointer_origin s out A mA F f ty p Hrun HA HF Hty Hp)
    as [asLink Hq].
  apply edbPointer_ok in Hq. destruct Hq as (_ & _ & _ & _ & Hdef).
  rewrite Hd in Hdef. repeat split; auto.
  - apply renderPointer_attr. unfold pointerAttrs. rewrite Hdef.
    apply in_or_app. right. now left.
  - now apply rendered_when_not_suppressed.
Qed.

Lemma default_is_rendered_witness :
  exists pre post,
    renderPointer
      ("createdAt",
       {| kind := property; multi := false; required := true;
          type_ := "datetime"; exclusive := false;
          default := Some "datetime_current()" |})
    = pre ++ "      default := datetime_current();" ++ post.
Proof.
  exact (proj1 (proj2 (@default_is_rendered
           exampleSchema exampleTarget
           "Post" (modelAt exampleSchema "Post")
           "createdAt" (fieldAt exampleSchema "Post" "createdAt")
           (typeAt exampleTarget "Post")
           {| kind := property; multi := false; required := true;
              type_ := "datetime"; exclusive := false;
              default := Some "datetime_current()" |}
           "datetime_current()"
           eq_refl eq_refl eq_refl eq_refl (or_introl eq_refl) eq_refl))).
Defined.

(** ** Every failure has its cause in the schema *)

Lemma classify_throw_cause s m f e :
  classify (indexModels s) (translateEnums s) m f = Throw e ->
  errorCause s m f e.
Proof.
  intros Hc. unfold classify in Hc.
  destruct (isLink (indexModels s) f) as [n|] eqn:E.
  - pose proof E as E'. apply isLink_Some in E'.
    destruct E' as [Ht [[target Hg]|[Hg Hi]]].
    + rewrite (member_Own _ _ Hg) in Hc.
      pose proof (candidates_Some (indexModels s) m f Ht Hg) as Hcand.
      destruct (1 <? length (linkPair target (model_name (model m))))%nat
        eqn:Hlen.
      * injection Hc as <-. simpl. apply Nat.ltb_lt in Hlen. eauto.
      * destruct (linkPair target (model_name (model m))) as [|g l] eqn:Hp;
          [|discriminate Hc].
        assert (Hlink : becomesLink (indexModels s) m f = true)
          by (unfold becomesLink; now rewrite Hcand).
        rewrite (edbPointer_link (translateEnums s) f Ht) in Hc.
        unfold linkIdOf in Hc.
        destruct (idFields f) as [kv|] eqn:Hkv; [|discriminate Hc].
        destruct (value kv) as [v|k|b|fn ps|ids|items] eqn:Hv;
          try (injection Hc as <-; simpl; left; split; auto;
               exists kv; split; auto; intros ids' H'; rewrite Hv in H';
               discriminate H').
        destruct ids as [|a [|b l]]; try discriminate Hc;
          injection Hc as <-; simpl; split; auto;
          eexists kv, _; repeat split; eauto; simpl; lia.
    + unfold member in Hc. rewrite Hg, Hi in Hc. injection Hc as <-.
      simpl. right. left. exists n. auto.
  - destruct (isLink_None _ _ E) as [(n & Ht & _ & Hi)|(fn & ps & Ht)].
    + destruct (ohas n (translateEnums s)) eqn:Henum.
      * rewrite (edbPointer_enum _ _ Ht Henum) in Hc. discriminate Hc.
      * destruct (oget n typeMapping) as [scalar|] eqn:Htab.
        -- rewrite (edbPointer_scalar _ _ Ht Henum Htab) in Hc.
           discriminate Hc.
        -- rewrite (edbPointer_unknown _ _ Ht Henum Htab Hi) in Hc.
           injection Hc as <-. simpl. split; auto. exists n. auto.
    + rewrite (edbPointer_function _ false _ Ht) in Hc. cbn [bind] in Hc.
      destruct ps as [ps|]; injection Hc as <-; simpl; eauto.
Qed.

(** X18.  Whenever a run fails, some field that the loops visit accounts for
    the error: more than one inverse candidate for
    [AmbiguousBacklinkError]; an owning-side link whose [fields] list has not
    exactly one name for [UnsupportedCompositeKeyError]; for the runtime's
    type error, an owning-side link whose [fields] value is no list, a type
    name that is no key of the model index and that every object inherits,
    or a function type without its parameter list; a non-link field whose
    type name is neither a declared enum nor in the table for
    [UnknownScalarTypeError]; a function type with its parameter list for
    [FunctionTypeUnsupportedError].  No run fails with
    [MissingRelationTargetError]. *)
Theorem every_failure_has_a_cause s e :
  translateSchema s = Throw e ->
  exists m f, In (m, f) (workList s) /\ errorCause s m f e.
Proof.
  intros H. apply translateSchema_error_origin in H.
  destruct H as (m & f & Hin & Hc).
  exists m, f. split; auto. now apply classify_throw_cause.
Qed.

Lemma every_failure_has_a_cause_witness :
  (exists m f,
      In (m, f) (workList compositeKeySchema)
      /\ errorCause compositeKeySchema m f UnsupportedCompositeKeyError)
  /\ (exists m f,
         In (m, f) (workList inheritedTypeSchema)
         /\ errorCause inheritedTypeSchema m f RuntimeTypeError)
  /\ (exists m f,
         In (m, f) (workList bareCallTypeSchema)
         /\ errorCause bareCallTypeSchema m f RuntimeTypeError).
Proof.
  exact (conj (every_failure_has_a_cause compositeKeySchema eq_refl)
           (conj (every_failure_has_a_cause inheritedTypeSchema eq_refl)
                 (every_failure_has_a_cause bareCallTypeSchema eq_refl))).
Defined.

(** ** The lines of a type's body bear distinct names *)

Lemma NoDup_map_injective (X Y : Type) (h : X -> Y) (l : list X) x y :
  NoDup (map h l) -> In x l -> In y l -> h x = h y -> x = y.
Proof.
  induction l as [|z l IH]; intros Hnd Hx Hy Heq; [destruct Hx|].
  simpl in Hnd. inversion Hnd as [|? ? Hnot Hnd']; subst.
  destruct Hx as [->|Hx], Hy as [->|Hy]; auto.
  - exfalso. apply Hnot. rewrite Heq. now apply in_map.
  - exfalso. apply Hnot. rewrite <- Heq. now apply in_map.
Qed.

Lemma NoDup_map_filter (X Y : Type) (h : X -> Y) (P : X -> bool) (l : list X) :
  NoDup (map h l) -> NoDup (map h (filter P l)).
Proof.
  induction l as [|z l IH]; intros Hnd; simpl; [constructor|].
  simpl in Hnd. inversion Hnd as [|? ? Hnot Hnd']; subst.
  destruct (P z); simpl; auto.
  constructor; auto. intros Hin. apply Hnot.
  apply in_map_iff in Hin. destruct Hin as [x [Hx Hin]].
  apply filter_In in Hin. destruct Hin as [Hin _].
  rewrite <- Hx. now apply in_map.
Qed.

Lemma filters_disjoint (X Y : Type) (h : X -> Y) (P Q : X -> bool)
    (l : list X) k :
  NoDup (map h l) ->
  (forall x, P x = true -> Q x = false) ->
  In k (map h (filter P l)) -> In k (map h (filter Q l)) -> False.
Proof.
  intros Hnd Hex HP HQ.
  apply in_map_iff in HP, HQ.
  destruct HP as [x [Hx HP]], HQ as [y [Hy HQ]].
  apply filter_In in HP, HQ. destruct HP as [Hinx HPx], HQ as [Hiny HQy].
  assert (x = y) by (eapply NoDup_map_injective; eauto; congruence).
  subst y. rewrite (Hex x HPx) in HQy. discriminate.
Qed.

Lemma NoDup_okeys_filter (V : Type) (keep : string * V -> bool) (m : omap V) :
  NoDup (okeys m) -> NoDup (okeys (filter keep m)).
Proof. apply (NoDup_map_filter fst keep m). Qed.

Lemma In_okeys_filter (V : Type) (keep : string * V -> bool) (m : omap V) k :
  In k (okeys (filter keep m)) -> In k (okeys m).
Proof.
  unfold okeys. intros Hin. apply in_map_iff in Hin.
  destruct Hin as [x [Hx Hin]]. apply filter_In in Hin.
  rewrite <- Hx. apply in_map. tauto.
Qed.

Lemma becomes_exclusive models owner f :
  (becomesProp models f = true -> becomesLink models owner f = false)
  /\ (becomesProp models f = true -> becomesBacklink models owner f = false)
  /\ (becomesLink models owner f = true ->
      becomesBacklink models owner f = false).
Proof.
  unfold becomesProp, becomesLink, becomesBacklink, candidates.
  destruct (isLink models f) as [n|]; [|auto].
  destruct (oget n models) as [target|]; [|repeat split; discriminate].
  destruct (linkPair _ _); repeat split; auto; discriminate.
Qed.

(** X19.  In a successful run no two lines of a type's body bear the same
    name: the stored pointers that are rendered and the backlinks have
    pairwise distinct names. *)
Theorem rendered_names_are_distinct s out A ty :
  translateSchema s = Ok out ->
  oget A (types out) = Some ty ->
  NoDup (renderedNames ty).
Proof.
  intros Hrun Hty.
  destruct (translateSchema_type_origin _ _ Hrun Hty) as (mA & HA & Hfields).
  unfold translateFields in Hfields.
  assert (Hnd : NoDup (map (fun f => name (field f)) (ovalues (fields mA))))
    by (eapply model_fields_NoDup, oget_ovalues; exact HA).
  destruct (@fields_keys _ _ _ _ _ _ Hfields Hnd (fun f _ => eq_refl))
    as (Hp & Hl & Hb).
  simpl in Hp, Hl, Hb.
  assert (Hpl : NoDup (okeys (props ty ++ links ty)%list)).
  { unfold okeys. rewrite map_app. fold (okeys (props ty)).
    fold (okeys (links ty)). rewrite Hp, Hl.
    apply NoDup_app.
    - now apply NoDup_map_filter.
    - now apply NoDup_map_filter.
    - intros k H1 H2. eapply filters_disjoint; [exact Hnd| |exact H1|exact H2].
      intros f. apply (becomes_exclusive (indexModels s) mA f). }
  unfold renderedNames, renderedPointers. apply NoDup_app.
  - now apply NoDup_okeys_filter.
  - rewrite Hb. now apply NoDup_map_filter.
  - intros k H1 H2. apply In_okeys_filter in H1.
    unfold okeys in H1. rewrite map_app in H1. apply in_app_or in H1.
    fold (okeys (props ty)) in H1. fold (okeys (links ty)) in H1.
    rewrite Hp, Hl in H1. rewrite Hb in H2.
    destruct H1 as [H1|H1];
      (eapply filters_disjoint; [exact Hnd| |exact H1|exact H2]);
      intros f; apply (becomes_exclusive (indexModels s) mA f).
Qed.

Lemma rendered_names_are_distinct_witness :
  NoDup (renderedNames (typeAt exampleTarget "User")).
Proof.
  exact (@rendered_names_are_distinct
           exampleSchema exampleTarget "User" (typeAt exampleTarget "User")
           eq_refl eq_refl).
Defined.

(** ** Self relations *)

(** X20.  A field whose declared type is its own model and that carries a
    relation attribute is one of its own inverse candidates: a successful run
    stores no pointer for it and records it as a backlink that navigates
    through the field itself. *)
Theorem self_relation_is_its_own_backlink s out A mA F f :
  translateSchema s = Ok out ->
  oget A (indexModels s) = Some mA ->
  oget F (fields mA) = Some f ->
  fieldType (field f) = TName A ->
  ohas "relation" (attrs f) = true ->
  exists ty,
    oget A (types out) = Some ty
    /\ oget F (props ty) = None
    /\ oget F (links ty) = None
    /\ oget F (backlinks ty)
       = Some {| expr := ".<" ++ F ++ "[is " ++ A ++ "];";
                 bl_multi := truthy (array (field f)) |}.
Proof.
  intros Hrun HA HF Ht Hrel.
  destruct (indexModels_oget _ _ HA) as (HnA & _ & _).
  pose proof (model_field_name _ _ _ HA HF) as Hname.
  assert (Hin : In f (linkPair mA (model_name (model mA)))).
  { unfold linkPair. apply filter_In. split.
    - eapply oget_ovalues; exact HF.
    - unfold isBacklinkCandidate. rewrite Hrel, Ht, HnA. simpl.
      apply String.eqb_refl. }
  destruct (translateSchema_slot _ _ _ Hrun HA HF)
    as (ty & o & Hty & _ & Hc & Hs).
  destruct (linkPair mA (model_name (model mA))) as [|g rest] eqn:Hpair;
    [destruct Hin|].
  rewrite (classify_backlink (indexModels s) (translateEnums s) mA f
             Ht HA Hpair) in Hc.
  destruct rest as [|g' rest]; [|simpl in Hc; discriminate].
  destruct Hin as [->|[]].
  simpl in Hc. injection Hc as <-.
  rewrite Hname, HnA in Hs. unfold slot in Hs.
  injection Hs as Hp Hl Hb.
  exists ty. auto.
Qed.

Lemma self_relation_is_its_own_backlink_witness :
  exists ty,
    oget "Node" (types (valueOf (translateSchema selfRelationSchema)))
    = Some ty
    /\ oget "parent" (props ty) = None
    /\ oget "parent" (links ty) = None
    /\ oget "parent" (backlinks ty)
       = Some {| expr := ".<parent[is Node];"; bl_multi := false |}.
Proof.
  exact (@self_relation_is_its_own_backlink
           selfRelationSchema
           (valueOf (translateSchema selfRelationSchema))
           "Node" (modelAt selfRelationSchema "Node")
           "parent" (fieldAt selfRelationSchema "Node" "parent")
           eq_refl eq_refl eq_refl eq_refl eq_refl).
Defined.

(** ** The block of a model *)

Lemma fold_index_none (X V : Type) (entry : X -> option (string * V))
    (xs : list X) (acc : omap V) :
  (forall x, In x xs -> entry x = None) ->
  fold_left (indexStep entry) xs acc = acc.
Proof.
  revert acc. induction xs as [|x xs IH]; intros acc Hnone; simpl; auto.
  rewrite IH by (intros y Hy; apply Hnone; now right).
  unfold indexStep. now rewrite (Hnone x (or_introl eq_refl)).
Qed.

(** X21.  In a successful run every model of the index is rendered: the
    output holds a block opened by [type <Name> {] whose body is the lines of
    the object type built for that model, closed by a brace on its own
    line. *)
Theorem every_model_is_rendered s out A mA :
  translateSchema s = Ok out ->
  oget A (indexModels s) = Some mA ->
  exists ty a b,
    translateFields (indexModels s) (translateEnums s) mA = Ok ty
    /\ renderSchemaAst out
       = a ++ ("  type " ++ A ++ " {" ++ nl
               ++ String.concat nl (typeBody ty) ++ nl ++ "  }") ++ b.
Proof.
  intros Hrun HA.
  destruct (translateSchema_type _ _ Hrun HA) as (ty & Hty & Hfields).
  destruct (@renderSchemaAst_type_block out A ty (oget_In _ _ Hty))
    as (a & b & Hab).
  exists ty, a, b. split; [exact Hfields | exact Hab].
Qed.

Lemma every_model_is_rendered_witness :
  exists ty a b,
    translateFields (indexModels exampleSchema) (translateEnums exampleSchema)
                    (modelAt exampleSchema "Profile") = Ok ty
    /\ renderSchemaAst exampleTarget
       = a ++ ("  type " ++ "Profile" ++ " {" ++ nl
               ++ String.concat nl (typeBody ty) ++ nl ++ "  }") ++ b.
Proof.
  exact (@every_model_is_rendered
           exampleSchema exampleTarget "Profile"
           (modelAt exampleSchema "Profile") eq_refl eq_refl).
Defined.

(** X22.  A model none of whose members is a field still gets an object
    type: a successful run registers the empty type under its name, and the
    output holds its block with an empty body. *)
Theorem fieldless_model_is_empty_block s out A mA :
  translateSchema s = Ok out ->
  oget A (indexModels s) = Some mA ->
  (forall p, In p (properties (model mA)) -> fieldEntry p = None) ->
  oget A (types out) = Some emptyType
  /\ exists a b,
       renderSchemaAst out
       = a ++ ("  type " ++ A ++ " {" ++ nl ++ nl ++ "  }") ++ b.
Proof.
  intros Hrun HA Hnone.
  destruct (indexModels_oget _ _ HA) as (_ & Hf & _).
  assert (Hempty : fields mA = []).
  { rewrite Hf. unfold indexFields, indexBy. now apply fold_index_none. }
  destruct (translateSchema_type _ _ Hrun HA) as (ty & Hty & Hfields).
  unfold translateFields in Hfields. rewrite Hempty in Hfields.
  simpl in Hfields. injection Hfields as <-.
  split; [exact Hty|].
  destruct (@renderSchemaAst_type_block out A emptyType (oget_In _ _ Hty))
    as (a & b & Hab).
  exists a, b. exact Hab.
Qed.

Lemma fieldless_model_is_empty_block_witness :
  oget "Marker" (types (valueOf (translateSchema fieldlessSchema)))
  = Some emptyType
  /\ exists a b,
       renderSchemaAst (valueOf (translateSchema fieldlessSchema))
       = a ++ ("  type " ++ "Marker" ++ " {" ++ nl ++ nl ++ "  }") ++ b.
Proof.
  apply (@fieldless_model_is_empty_block
           fieldlessSchema (valueOf (translateSchema fieldlessSchema))
           "Marker" (modelAt fieldlessSchema "Marker") eq_refl eq_refl).
  intros p Hp. simpl in Hp.
  destruct Hp as [<-|[<-|[<-|[]]]]; reflexivity.
Defined.

(** ** Fields of enum type *)

(** X23.  For a field whose declared type is the name of a declared enum, of
    no declared model and not one that every object inherits, the loop body
    never throws: whatever the scalar table holds for that name, it writes
    into [props] a property whose type is the enum name itself; a successful
    run holds that property under the field's name, and nothing under it in
    [links] or [backlinks]. *)
Theorem enum_field_is_property s A mA F f e :
  oget A (indexModels s) = Some mA ->
  oget F (fields mA) = Some f ->
  In (BEnum e) (list_ s) ->
  fieldType (field f) = TName (enum_name e) ->
  (forall m, In (BModel m) (list_ s) -> model_name m <> enum_name e) ->
  inherited (enum_name e) = false ->
  let p := {| kind := property;
              multi := truthy (array (field f));
              required := if truthy (array (field f)) then false
                          else negb (truthy (optional (field f)));
              type_ := enum_name e;
              exclusive := ohas "unique" (attrs f);
              default := getFieldDefault (translateEnums s) f |} in
  (forall t,
      translateField (indexModels s) (translateEnums s) mA t f
      = Ok (setProp t F p))
  /\ (forall out,
         translateSchema s = Ok out ->
         exists ty,
           oget A (types out) = Some ty
           /\ oget F (props ty) = Some p
           /\ oget F (links ty) = None
           /\ oget F (backlinks ty) = None).
Proof.
  intros HA HF He Ht Hnomodel Hinh p.
  pose proof (model_field_name _ _ _ HA HF) as Hname.
  assert (Henum : ohas (enum_name e) (translateEnums s) = true).
  { eapply indexBy_declared; [exact He | reflexivity]. }
  assert (Hlink : isLink (indexModels s) f = None).
  { apply (isLink_None_name _ _ Ht). split; [|exact Hinh].
    apply indexBy_none.
    intros b v Hb Hentry. destruct b as [m| |]; try discriminate.
    simpl in Hentry. injection Hentry as Hn _.
    exact (Hnomodel m Hb Hn). }
  assert (Hptr : edbPointer (translateEnums s) false f = Ok p)
    by exact (edbPointer_enum _ _ Ht Henum).
  assert (Hc : classify (indexModels s) (translateEnums s) mA f
               = Ok (StoredProp p)).
  { rewrite classify_nonlink by assumption. now rewrite Hptr. }
  split.
  - intros t. rewrite translateField_classify, Hc. simpl. now rewrite Hname.
  - intros out Hrun.
    destruct (translateSchema_slot _ _ _ Hrun HA HF)
      as (ty & o & Hty & _ & Hc' & Hslot).
    rewrite Hc in Hc'. injection Hc' as <-.
    unfold slot in Hslot. injection Hslot as Hp Hl Hb.
    exists ty. auto.
Qed.

Lemma enum_field_is_property_witness :
  (forall t,
      translateField (indexModels exampleSchema) (translateEnums exampleSchema)
                     (modelAt exampleSchema "User") t
                     (fieldAt exampleSchema "User" "role")
      = Ok (setProp t "role"
              {| kind := property; multi := false; required := true;
                 type_ := "Role"; exclusive := false;
                 default := Some "Role.USER" |}))
  /\ (forall out,
         translateSchema exampleSchema = Ok out ->
         exists ty,
           oget "User" (types out) = Some ty
           /\ oget "role" (props ty)
              = Some {| kind := property; multi := false; required := true;
                        type_ := "Role"; exclusive := false;
                        default := Some "Role.USER" |}
           /\ oget "role" (links ty) = None
           /\ oget "role" (backlinks ty) = None).
Proof.
  refine (@enum_field_is_property
            exampleSchema
            "User" (modelAt exampleSchema "User")
            "role" (fieldAt exampleSchema "User" "role")
            {| enum_name := "Role";
               enumerators := [IEnumerator "USER"; IOther; IEnumerator "ADMIN"] |}
            eq_refl eq_refl _ eq_refl _ eq_refl).
  - simpl. tauto.
  - simpl. intros m H.
    repeat (destruct H as [H|H];
            [try discriminate H; injection H as <-; discriminate|]).
    destruct H.
Defined.

(** ** Names that every object inherits, and calls without parameters *)

Lemma mapPrismaTypeToEdgeDBScalar_inherited n :
  oget n typeMapping = None ->
  inherited n = true ->
  mapPrismaTypeToEdgeDBScalar (TName n) = Ok (Inherited n).
Proof.
  intros Hn Hi. unfold mapPrismaTypeToEdgeDBScalar, member.
  now rewrite Hn, Hi.
Qed.

(** X24.  A field whose declared type is a name that is no key of the model
    index but that every object inherits ([toString], [constructor], ...) is
    taken for a link: whether or not the name is a declared enum, the loop
    body throws the runtime's type error on it, the run returns no schema,
    and that error is the run's error when no field visited before throws. *)
Theorem inherited_type_name_is_a_runtime_error s A mA F f n :
  oget A (indexModels s) = Some mA ->
  oget F (fields mA) = Some f ->
  fieldType (field f) = TName n ->
  oget n (indexModels s) = None ->
  inherited n = true ->
  isLink (indexModels s) f = Some n
  /\ failsWith s (mA, f) RuntimeTypeError.
Proof.
  intros HA HF Ht Hn Hi.
  destruct (isLink_inherited (indexModels s) f Ht Hn Hi) as [Hlink Hm].
  split; [exact Hlink|].
  apply failsWith_intro; [eapply workList_In; eauto|].
  rewrite fieldError_classify. unfold classify. now rewrite Hlink, Hm.
Qed.

Lemma inherited_type_name_is_a_runtime_error_witness :
  isLink (indexModels inheritedTypeSchema)
         (fieldAt inheritedTypeSchema "Widget" "maker") = Some "constructor"
  /\ translateSchema inheritedTypeSchema = Throw RuntimeTypeError.
Proof.
  pose proof (@inherited_type_name_is_a_runtime_error
                inheritedTypeSchema
                "Widget" (modelAt inheritedTypeSchema "Widget")
                "maker" (fieldAt inheritedTypeSchema "Widget" "maker")
                "constructor" eq_refl eq_refl eq_refl eq_refl eq_refl)
    as [Hlink Hfail].
  split; [exact Hlink|].
  refine (proj2 (proj2 Hfail)
            [(modelAt inheritedTypeSchema "Widget",
              fieldAt inheritedTypeSchema "Widget" "id")]
            [] eq_refl _).
  intros y [<-|[]]. reflexivity.
Defined.

(** X25.  A field whose declared type is a call without its parameter list
    is not a link, and [mapPrismaTypeToEdgeDBScalar] fails on it while it
    builds its message: the loop body throws the runtime's type error, not
    [FunctionTypeUnsupportedError], the run returns no schema, and that error
    is the run's error when no field visited before throws. *)
Theorem bare_call_type_is_a_runtime_error s A mA F f fn :
  oget A (indexModels s) = Some mA ->
  oget F (fields mA) = Some f ->
  fieldType (field f) = TFunc fn None ->
  mapPrismaTypeToEdgeDBScalar (fieldType (field f)) = Throw RuntimeTypeError
  /\ failsWith s (mA, f) RuntimeTypeError.
Proof.
  intros HA HF Ht. split; [now rewrite Ht|].
  apply failsWith_intro; [eapply workList_In; eauto|].
  assert (Hlink : isLink (indexModels s) f = None)
    by (unfold isLink; now rewrite Ht).
  rewrite fieldError_classify, (classify_nonlink _ _ _ _ Hlink).
  now rewrite (edbPointer_function _ false _ Ht).
Qed.

Lemma bare_call_type_is_a_runtime_error_witness :
  translateSchema bareCallTypeSchema = Throw RuntimeTypeError.
Proof.
  exact (proj2 (proj2 (proj2 (@bare_call_type_is_a_runtime_error
                                bareCallTypeSchema
                                "Place" (modelAt bareCallTypeSchema "Place")
                                "area"
                                (fieldAt bareCallTypeSchema "Place" "area")
                                "Unsupported" eq_refl eq_refl eq_refl)))
               [] [] eq_refl (fun y (H : In y []) => match H with end)).
Defined.
